(** * IAM Group construct (aws-iam/lib/group.ts)

    A shallow embedding of [GroupBase], [Group], the two import factories
    and the pieces of the surrounding framework they call, followed by the
    properties of the construct. Methods take the object [this] and its
    surroundings and return them updated. [addUser] and [policyFragment]
    hand over to objects defined elsewhere and are left out. *)

From Stdlib Require Import Strings.String Strings.Ascii.
From stdpp Require Import base option list strings pretty.

Local Open Scope string_scope.
Local Open Scope list_scope.

(** ** Strings that may carry deferred values

    A TypeScript [string] handled by the construct is either an ordinary
    literal or a string in which some positions are occupied by markers of
    values known only when the template is deployed. *)

(** The components an ARN is made of. *)
Inductive ArnField : Type :=
| FPartition
| FService
| FRegion
| FAccount
| FResource
| FResourceName.

(** Modelled from the spec: the deferred values of [../../core] (tokens) are
    missing from the sources. A string is a sequence of fragments: a plain
    character, the marker of an opaque deploy-time value, or the marker of one
    component of an ARN that is itself deferred. *)
#[warnings="-register-all"]
Inductive Frag : Type :=
| Chr (c : ascii)
| Ref (name : string)
| ArnPart (f : ArnField) (arn : list Frag).

Abbreviation Str := (list Frag).
Abbreviation chars := (list ascii).

Definition lit (s : string) : Str := Chr <$> list_ascii_of_string s.

Definition fragChar (x : Frag) : option ascii :=
  match x with
  | Chr c => Some c
  | _ => None
  end.

(** [Token.isUnresolved] seen from the other side: the characters of a string
    that holds no marker. *)
Definition literal (s : Str) : option chars := mapM fragChar s.

(** ** ARNs *)

Definition COLON : ascii := ":"%char.
Definition SLASH : ascii := "/"%char.

(** Cuts [s] at the first occurrence of [c]. *)
Fixpoint breakAt (c : ascii) (s : chars) : option (chars * chars) :=
  match s with
  | [] => None
  | x :: s' =>
      if decide (x = c) then Some ([], s')
      else '(a, b) ← breakAt c s'; Some (x :: a, b)
  end.

(** The first [/]-separated segment of a resource name. *)
Definition firstSegment (s : chars) : chars :=
  match breakAt SLASH s with
  | Some (a, _) => a
  | None => s
  end.

Record ArnParts : Type := mkArnParts {
  pPartition : chars;
  pService : chars;
  pRegion : chars;
  pAccount : chars;
  pResource : chars;
  pResourceName : chars
}.

(** Modelled from the spec: [Arn.split] of [../../core] is missing. An ARN is
    [arn:partition:service:region:account:resource/resourceName]; under the
    slash convention the resource type ends at the first [/] and everything
    after it, further slashes included, is the resource name. A string of
    another shape is a parse error. *)
Definition parseArn (s : chars) : option ArnParts :=
  '(scheme, r1) ← breakAt COLON s;
  guard (scheme = list_ascii_of_string "arn");;
  '(partition, r2) ← breakAt COLON r1;
  '(service, r3) ← breakAt COLON r2;
  '(region, r4) ← breakAt COLON r3;
  '(account, r5) ← breakAt COLON r4;
  '(resource, name) ← breakAt SLASH r5;
  Some (mkArnParts partition service region account resource name).

(** The text of an ARN with the given components. *)
Definition arnText (p s r a ty rn : chars) : chars :=
  list_ascii_of_string "arn" ++ COLON :: p ++ COLON :: s ++ COLON :: r
    ++ COLON :: a ++ COLON :: ty ++ SLASH :: rn.

Definition partsField (f : ArnField) (p : ArnParts) : chars :=
  match f with
  | FPartition => pPartition p
  | FService => pService p
  | FRegion => pRegion p
  | FAccount => pAccount p
  | FResource => pResource p
  | FResourceName => pResourceName p
  end.

(** Modelled from the spec: what a component of a deferred ARN is worth once
    the ARN is known. The name of a deferred ARN reflects the first path
    segment of the resource name only. *)
Definition deferredField (f : ArnField) (p : ArnParts) : chars :=
  match f with
  | FResourceName => firstSegment (pResourceName p)
  | _ => partsField f p
  end.

(** Deploy-time values of the opaque references. *)
Definition Env : Type := string → option chars.

(** Modelled from the spec: resolution of a string at emission, when every
    deferred value is known. *)
Fixpoint resolveFrag (env : Env) (x : Frag) : option chars :=
  match x with
  | Chr c => Some [c]
  | Ref n => env n
  | ArnPart f arn =>
      s ← mapM (resolveFrag env) arn;
      p ← parseArn (concat s);
      Some (deferredField f p)
  end.

(** Modelled from the spec: a string resolves to the concatenation of what
    its fragments resolve to. *)
Definition resolve (env : Env) (s : Str) : option chars :=
  ss ← mapM (resolveFrag env) s; Some (concat ss).

(** Modelled from the spec: [ArnComponents] of [../../core], with the fields
    the construct writes and reads. *)
Record ArnComponents : Type := mkArnComponents {
  partition : option Str;
  service : Str;
  region : option Str;
  account : option Str;
  resource : Str;
  resourceName : option Str
}.

Inductive ArnFormat : Type :=
| SLASH_RESOURCE_NAME.

(** Modelled from the spec: the part of [Stack] of [../../core] that ARNs
    depend on. Partition, region and account may be deferred. *)
Record Stack : Type := mkStack {
  stackPartition : Str;
  stackRegion : Str;
  stackAccount : Str
}.

(** Modelled from the spec: [Stack.formatArn], missing from the sources.
    Components left out default to those of the stack. *)
Definition formatArn (stack : Stack) (c : ArnComponents) : Str :=
  lit "arn:" ++ default (stackPartition stack) (partition c)
    ++ lit ":" ++ service c
    ++ lit ":" ++ default (stackRegion stack) (region c)
    ++ lit ":" ++ default (stackAccount stack) (account c)
    ++ lit ":" ++ resource c
    ++ match resourceName c with
       | Some n => lit "/" ++ n
       | None => []
       end.

(** The components of a parsed literal, and those of a deferred ARN. *)
Definition litParts (p : ArnParts) : ArnComponents :=
  {| partition := Some (Chr <$> pPartition p);
     service := Chr <$> pService p;
     region := Some (Chr <$> pRegion p);
     account := Some (Chr <$> pAccount p);
     resource := Chr <$> pResource p;
     resourceName := Some (Chr <$> pResourceName p) |}.

Definition deferredParts (arn : Str) : ArnComponents :=
  {| partition := Some [ArnPart FPartition arn];
     service := [ArnPart FService arn];
     region := Some [ArnPart FRegion arn];
     account := Some [ArnPart FAccount arn];
     resource := [ArnPart FResource arn];
     resourceName := Some [ArnPart FResourceName arn] |}.

(** Whether the plain character [c] occurs in a string, and the cut of a
    string at its first occurrence. A marker is never that character. *)
Definition hasChr (c : ascii) (s : Str) : bool :=
  existsb (λ x, bool_decide (fragChar x = Some c)) s.

Fixpoint breakAtChr (c : ascii) (s : Str) : option (Str * Str) :=
  match s with
  | [] => None
  | x :: s' =>
      if bool_decide (fragChar x = Some c) then Some ([], s')
      else '(a, b) ← breakAtChr c s'; Some (x :: a, b)
  end.

(** A string that begins with the text [arn:] is taken for an ARN, whether or
    not markers follow. *)
Definition looksLikeArn (s : Str) : bool :=
  bool_decide (literal (take 4 s) = Some (list_ascii_of_string "arn:")).

(** Modelled from the spec: the fields of what follows [arn:], cut in place
    with the markers left where they stand, under the same convention as
    [parseArn]. *)
Definition parseArnFields (s : Str) : option ArnComponents :=
  '(partition, r2) ← breakAtChr COLON s;
  '(service, r3) ← breakAtChr COLON r2;
  '(region, r4) ← breakAtChr COLON r3;
  '(account, r5) ← breakAtChr COLON r4;
  '(resource, name) ← breakAtChr SLASH r5;
  Some (mkArnComponents (Some partition) service (Some region) (Some account) resource
          (Some name)).

(** Modelled from the spec: [Stack.splitArn], missing from the sources. A
    string that begins with [arn:] is split where it stands and fails on a
    shape that is not an ARN; another literal is an error; a string that is a
    deferred value cannot be split at declaration time and yields deferred
    components. *)
Definition splitArn (arn : Str) (arnFormat : ArnFormat) : option ArnComponents :=
  if looksLikeArn arn then parseArnFields (drop 4 arn)
  else
    match literal arn with
    | Some _ => None
    | None => Some (deferredParts arn)
    end.

(** ** The construct tree, policies and diagnostics *)

(** A scope: its path in the construct tree and the stack it belongs to. *)
Record Construct : Type := mkConstruct {
  nodePath : string;
  stackOf : Stack
}.

(** References to objects: managed policies are compared by reference only;
    inline policies live in a store and are addressed by position. *)
Definition IManagedPolicy : Type := nat.
Definition PolicyRef : Type := nat.

(** [GroupProps] *)
Module GroupProps.
Record t : Type := mk {
  groupName : option Str;
  managedPolicies : option (list IManagedPolicy);
  path : option Str
}.
End GroupProps.

Section GroupModel.

(** Opaque to the construct: policy statements, and the ARN every managed
    policy object exposes as its read-only [managedPolicyArn]. *)
Context {PolicyStatement : Type}.
Variable managedPolicyArn : IManagedPolicy → Str.

(** What [Resource] of [../../core] hands back for the two attributes of the
    declared resource. *)
Variable getResourceNameAttribute : Str → Str.
Variable getResourceArnAttribute : Str → ArnComponents → Str.

(** Modelled from the spec: the [Policy] object of [./policy] exposes
    [attachToGroup] and [addStatements]; it records the groups it is attached
    to and the statements it was given. *)
Record Policy : Type := mkPolicy {
  policyPath : string;
  statements : list PolicyStatement;
  groups : list string
}.

(** The mutable surroundings of a group: the store of inline policies and the
    diagnostics channel, a log of (construct path, message). *)
Record World : Type := mkWorld {
  policies : list Policy;
  warnings : list (string * Str)
}.

(** Modelled from the spec: [new Policy(scope, id)] makes a new object, empty
    and attached to nothing, named after its scope. *)
Definition Policy_new (scope id : string) (w : World) : PolicyRef * World :=
  (length (policies w),
   mkWorld (policies w ++ [mkPolicy (scope +:+ "/" +:+ id) [] []]) (warnings w)).

(** Modelled from the spec: whether the policy already holds a group, and
    the policy taking down a group it is attached to. *)
Definition Policy_holdsGroup (p : PolicyRef) (group : string) (w : World) : bool :=
  match policies w !! p with
  | Some o => bool_decide (group ∈ groups o)
  | None => false
  end.

Definition Policy_recordGroup (p : PolicyRef) (group : string) (w : World) : World :=
  mkWorld
    (alter (λ o, mkPolicy (policyPath o) (statements o) (groups o ++ [group])) p (policies w))
    (warnings w).

(** Modelled from the spec: [policy.addStatements(...statements)]. *)
Definition Policy_addStatements (p : PolicyRef) (ss : list PolicyStatement) (w : World) : World :=
  mkWorld
    (alter (λ o, mkPolicy (policyPath o) (statements o ++ ss) (groups o)) p (policies w))
    (warnings w).

(** Modelled from the spec: [Annotations.of(scope).addWarning(message)] appends
    to the diagnostics and never fails. *)
Definition addWarning (scope : string) (message : Str) (w : World) : World :=
  mkWorld (policies w) (warnings w ++ [(scope, message)]).

(** ** GroupBase *)

Record GroupBase : Type := mkGroupBase {
  node : string;
  physicalName : Str;
  principalAccount : option Str;
  attachedPolicies : list PolicyRef;
  defaultPolicy : option PolicyRef
}.

(** The two concrete classes: the identity-only [Import] of [fromGroupArn] and
    the owned [Group] with its ledger of managed policies. *)
Inductive GroupObj : Type :=
| Import (base : GroupBase) (groupName : option Str) (groupArn : Str)
| Group (base : GroupBase) (groupName groupArn : Str) (managedPolicies : list IManagedPolicy).

Definition base (this : GroupObj) : GroupBase :=
  match this with
  | Import b _ _ => b
  | Group b _ _ _ => b
  end.

Definition withBase (b : GroupBase) (this : GroupObj) : GroupObj :=
  match this with
  | Import _ n a => Import b n a
  | Group _ n a mps => Group b n a mps
  end.

Definition groupName (this : GroupObj) : option Str :=
  match this with
  | Import _ n _ => n
  | Group _ n _ _ => Some n
  end.

Definition groupArn (this : GroupObj) : Str :=
  match this with
  | Import _ _ a => a
  | Group _ _ a _ => a
  end.

Definition managedPolicies (this : GroupObj) : list IManagedPolicy :=
  match this with
  | Import _ _ _ => []
  | Group _ _ _ mps => mps
  end.

(** The owned class, as opposed to the imported one. *)
Definition isGroup (this : GroupObj) : Prop :=
  match this with
  | Group _ _ _ _ => True
  | Import _ _ _ => False
  end.

Record AddToPrincipalPolicyResult : Type := mkResult {
  statementAdded : bool;
  policyDependable : PolicyRef
}.

(** Modelled from the spec: [AttachedPolicies.attach] of [./private/util]
    records the policy; one attached twice is counted once. *)
Definition AttachedPolicies_attach (policy : PolicyRef) (attached : list PolicyRef)
  : list PolicyRef :=
  if bool_decide (policy ∈ attached) then attached else attached ++ [policy].

(** [this.attachedPolicies.attach(policy)] *)
Definition recordAttached (policy : PolicyRef) (this : GroupObj) : GroupObj :=
  let b := base this in
  withBase (mkGroupBase (node b) (physicalName b) (principalAccount b)
              (AttachedPolicies_attach policy (attachedPolicies b)) (defaultPolicy b)) this.

(** Modelled from the spec: [policy.attachToGroup(group)]. A group the policy
    already holds is ignored. Otherwise the policy takes the group down and
    attaches itself by the same path as [attachInlinePolicy]: the group
    enters the policy in its record, and the call of [attachToGroup] that
    follows there finds the group held and returns. *)
Definition Policy_attachToGroup (p : PolicyRef) (group : GroupObj) (w : World)
  : GroupObj * World :=
  if Policy_holdsGroup p (node (base group)) w then (group, w)
  else (recordAttached p group, Policy_recordGroup p (node (base group)) w).

(** [GroupBase.attachInlinePolicy] *)
Definition attachInlinePolicy (policy : PolicyRef) (this : GroupObj) (w : World)
  : GroupObj * World :=
  Policy_attachToGroup policy (recordAttached policy this) w.

(** [GroupBase.addManagedPolicy]: the body is empty. *)
Definition GroupBase_addManagedPolicy (_policy : IManagedPolicy) (this : GroupObj) (w : World)
  : GroupObj * World :=
  (this, w).

(** [GroupBase.addToPrincipalPolicy] *)
Definition addToPrincipalPolicy (statement : PolicyStatement) (this : GroupObj) (w : World)
  : AddToPrincipalPolicyResult * GroupObj * World :=
  let b := base this in
  let '(p, this1, w1) :=
    match defaultPolicy b with
    | None =>
        let '(p, w') := Policy_new (node b) "DefaultPolicy" w in
        let '(this', w'') :=
          Policy_attachToGroup p
            (withBase (mkGroupBase (node b) (physicalName b) (principalAccount b)
                         (attachedPolicies b) (Some p)) this) w' in
        (p, this', w'')
    | Some p => (p, this, w)
    end in
  (mkResult true p, this1, Policy_addStatements p [statement] w1).

(** [GroupBase.addToPolicy] *)
Definition addToPolicy (statement : PolicyStatement) (this : GroupObj) (w : World)
  : bool * GroupObj * World :=
  let '(r, this', w') := addToPrincipalPolicy statement this w in
  (statementAdded r, this', w').

(** ** Import *)

(** Modelled from the spec: the physical name of a [Resource] is the name
    the caller supplied, or else a value the naming service assigns at
    deployment. *)
Definition Resource_physicalName (path : string) (name : option Str) : Str :=
  default [Ref (path +:+ ".PhysicalName")] name.

(** The path of a construct made under [scope] with the given id. *)
Definition childPath (scope : Construct) (id : string) : string :=
  nodePath scope +:+ "/" +:+ id.

(** [Group.fromGroupArn]. The non-null assertion on [resourceName] is erased
    at run time, so the imported name is whatever the split produced. *)
Definition fromGroupArn (scope : Construct) (id : string) (groupArn : Str) : option GroupObj :=
  arnComponents ← splitArn groupArn SLASH_RESOURCE_NAME;
  let groupName := resourceName arnComponents in
  Some (Import
          (mkGroupBase (childPath scope id)
             (Resource_physicalName (childPath scope id) None)
             (account arnComponents) [] None)
          groupName groupArn).

(** The object literal [fromGroupName] hands to [formatArn]. *)
Definition importArnComponents (groupName : Str) : ArnComponents :=
  {| partition := None;
     service := lit "iam";
     region := Some (lit "");
     account := None;
     resource := lit "group";
     resourceName := Some groupName |}.

(** [Group.fromGroupName] *)
Definition fromGroupName (scope : Construct) (id : string) (groupName : Str) : option GroupObj :=
  let groupArn := formatArn (stackOf scope) (importArnComponents groupName) in
  fromGroupArn scope id groupArn.

(** ** Group *)

(** Modelled from the spec: [Lazy.list(producer, { omitEmpty })] of
    [../../core]. The producer closes over [this] and is run at emission on
    the group as it is then. *)
Record LazyList : Type := mkLazyList {
  produce : GroupObj → list Str;
  omitEmpty : bool
}.

(** Modelled from the spec: the resource declaration [CfnGroup] of
    [./iam.generated], with the two references it hands back. *)
Record CfnGroup : Type := mkCfnGroup {
  logicalId : string;
  cfnGroupName : Str;
  cfnManagedPolicyArns : LazyList;
  cfnPath : option Str
}.

(** Modelled from the spec: the two references the declared resource hands
    back, one that resolves to its name and one that resolves to its ARN. *)
Definition ref (r : CfnGroup) : Str := [Ref (logicalId r)].
Definition attrArn (r : CfnGroup) : Str := [Ref (logicalId r +:+ ".Arn")].

(** JavaScript's [charAt] and one-argument [substr]. The marker of a deferred
    value is never the character it is compared with. *)
Definition charAt (s : Str) (i : nat) : option Frag := s !! i.
Definition substr (s : Str) (from : nat) : Str := drop from s.

Definition isSlash (x : option Frag) : bool :=
  match x with
  | Some (Chr c) => bool_decide (c = SLASH)
  | _ => false
  end.

(** The object literal handed to [getResourceArnAttribute]. An absent or empty
    path is falsy. *)
Definition groupArnComponents (path : option Str) (physicalName : Str) : ArnComponents :=
  {| partition := None;
     region := Some (lit "");
     service := lit "iam";
     account := None;
     resource := lit "group";
     resourceName :=
       Some (match path with
             | Some ((_ :: _) as p) => substr p (if isSlash (charAt p 0) then 1 else 0)
             | _ => lit ""
             end ++ physicalName) |}.

(** Follows the spec's words, to be compared with [groupArnComponents]: the
    path with a single leading [/] stripped, an absent path counting as
    empty. *)
Definition stripLeadingSlash (path : option Str) : Str :=
  match path with
  | None => []
  | Some (Chr c :: rest) => if decide (c = SLASH) then rest else Chr c :: rest
  | Some p => p
  end.

(** The text of the advisory. *)
Definition exceededMessage (count : nat) (physicalName : Str) : Str :=
  lit "You added " ++ lit (pretty count) ++ lit " to IAM Group " ++ physicalName
    ++ lit ". The maximum number of managed policies attached to an IAM group is 10.".

(** [Group.managedPoliciesExceededWarning] *)
Definition managedPoliciesExceededWarning (this : GroupObj) (w : World) : World :=
  if bool_decide (10 < length (managedPolicies this)) then
    addWarning (node (base this))
      (exceededMessage (length (managedPolicies this)) (physicalName (base this))) w
  else w.

(** Follows the spec's words, to be compared with the check above: what
    reaches the diagnostics for a group, one advisory when its count of
    managed policies exceeds 10 and nothing otherwise. *)
Definition capacityWarnings (this : GroupObj) : list (string * Str) :=
  if bool_decide (10 < length (managedPolicies this)) then
    [(node (base this),
      exceededMessage (length (managedPolicies this)) (physicalName (base this)))]
  else [].

(** The constructor of [Group]. It returns the group, the resource it
    declared, and the surroundings after the capacity check. *)
Definition Group_new (scope : Construct) (id : string) (props : GroupProps.t) (w : World)
  : GroupObj * CfnGroup * World :=
  let path := childPath scope id in
  let physicalName := Resource_physicalName path (GroupProps.groupName props) in
  let ledger := [] ++ default [] (GroupProps.managedPolicies props) in
  let group :=
    mkCfnGroup (path +:+ "/Resource") physicalName
      (mkLazyList (λ this, managedPolicyArn <$> managedPolicies this) true)
      (GroupProps.path props) in
  let groupName := getResourceNameAttribute (ref group) in
  let groupArn :=
    getResourceArnAttribute (attrArn group)
      (groupArnComponents (GroupProps.path props) physicalName) in
  let this :=
    Group (mkGroupBase path physicalName (Some (stackAccount (stackOf scope))) [] None)
      groupName groupArn ledger in
  (this, group, managedPoliciesExceededWarning this w).

(** [Group.addManagedPolicy]: [find] with [===] on references. *)
Definition Group_addManagedPolicy (policy : IManagedPolicy) (this : GroupObj) (w : World)
  : GroupObj * World :=
  match this with
  | Group b n a mps =>
      match find (λ mp, bool_decide (mp = policy)) mps with
      | Some _ => (this, w)
      | None =>
          let this' := Group b n a (mps ++ [policy]) in
          (this', managedPoliciesExceededWarning this' w)
      end
  | Import _ _ _ => (this, w)
  end.

(** Method dispatch: [Group] overrides what [Import] inherits. *)
Definition addManagedPolicy (policy : IManagedPolicy) (this : GroupObj) (w : World)
  : GroupObj * World :=
  match this with
  | Import _ _ _ => GroupBase_addManagedPolicy policy this w
  | Group _ _ _ _ => Group_addManagedPolicy policy this w
  end.

(** A sequence of calls of [addManagedPolicy], in order. *)
Definition addManagedPolicies (ps : list IManagedPolicy) (this : GroupObj) (w : World)
  : GroupObj * World :=
  foldl (λ st p, addManagedPolicy p st.1 st.2) (this, w) ps.

(** ** Emission *)

Inductive CfnValue : Type :=
| VString (s : Str)
| VList (l : list Str).

(** Modelled from the spec: a lazy list is produced once at emission, and an
    empty one is left out when [omitEmpty] is set. *)
Definition resolveLazyList (l : LazyList) (this : GroupObj) : option (list Str) :=
  match produce l this with
  | [] => if omitEmpty l then None else Some []
  | x => Some x
  end.

(** Modelled from the spec: the properties of the declared group in the
    emitted template; a property that is absent has no entry. *)
Definition toCloudFormation (r : CfnGroup) (this : GroupObj) : list (string * CfnValue) :=
  omap id
    [ Some ("GroupName", VString (cfnGroupName r));
      (λ l, ("ManagedPolicyArns", VList l)) <$> resolveLazyList (cfnManagedPolicyArns r) this;
      (λ p, ("Path", VString p)) <$> cfnPath r ].

(** The value of a property in the emitted template, if it has one. *)
Definition property (key : string) (t : list (string * CfnValue)) : option CfnValue :=
  snd <$> find (λ kv, bool_decide (kv.1 = key)) t.

End GroupModel.

(** ** Sequences of calls *)

(** Calls of [addToPrincipalPolicy] one after the other, with what each call
    returned. *)
Fixpoint addToPrincipalPolicies {PolicyStatement : Type} (ss : list PolicyStatement)
    (this : GroupObj) (w : @World PolicyStatement)
  : list AddToPrincipalPolicyResult * GroupObj * World :=
  match ss with
  | [] => ([], this, w)
  | s :: ss' =>
      let '(r, this1, w1) := addToPrincipalPolicy s this w in
      let '(rs, this2, w2) := addToPrincipalPolicies ss' this1 w1 in
      (r :: rs, this2, w2)
  end.

(** The group once [this.defaultPolicy] is set. *)
Definition withDefaultPolicy (p : PolicyRef) (this : GroupObj) : GroupObj :=
  withBase (mkGroupBase (node (base this)) (physicalName (base this))
              (principalAccount (base this)) (attachedPolicies (base this)) (Some p)) this.

(** [new Group(scope, id, props)] followed by calls of [addManagedPolicy] on
    the new group. *)
Definition declareGroup {PolicyStatement : Type} (managedPolicyArn : IManagedPolicy → Str)
    (getResourceNameAttribute : Str → Str)
    (getResourceArnAttribute : Str → ArnComponents → Str)
    (scope : Construct) (id : string) (props : GroupProps.t)
    (later : list IManagedPolicy) (w : @World PolicyStatement) : GroupObj * World :=
  let '(this, _, w1) :=
    Group_new managedPolicyArn getResourceNameAttribute getResourceArnAttribute
      scope id props w in
  addManagedPolicies later this w1.

(** ** Sample surroundings *)

Definition sampleStack : Stack :=
  mkStack (lit "aws") (lit "us-east-1") (lit "123456789012").

Definition sampleScope : Construct := mkConstruct "Stack" sampleStack.

(** A stack that knows neither its partition nor its account before
    deployment. *)
Definition agnosticStack : Stack :=
  mkStack [Ref "AWS::Partition"] [Ref "AWS::Region"] [Ref "AWS::AccountId"].

Definition agnosticScope : Construct := mkConstruct "Stack" agnosticStack.



(** An owned group with a given ledger, and surroundings in which nothing
    has happened yet. *)
Definition sampleBase : GroupBase :=
  mkGroupBase "Stack/Admins" (lit "NetAdmin") (Some (lit "123456789012")) [] None.

Definition sampleGroup (mps : list IManagedPolicy) : GroupObj :=
  Group sampleBase [Ref "Stack/Admins/Resource"] [Ref "Stack/Admins/Resource.Arn"] mps.

Definition emptyWorld : @World string := mkWorld [] [].

Definition sampleProps (batch : option (list IManagedPolicy)) : GroupProps.t :=
  GroupProps.mk (Some (lit "NetAdmin")) batch (Some (lit "/admins/")).

(** An imported group of another construct, and surroundings that hold one
    inline policy declared elsewhere. *)
Definition sampleImport : GroupObj :=
  Import
    (mkGroupBase "Stack/Ops" [Ref "Stack/Ops.PhysicalName"] (Some (lit "123456789012")) [] None)
    (Some (lit "Ops")) (lit "arn:aws:iam::123456789012:group/Ops").

Definition sharedPolicyWorld : @World string :=
  mkWorld [mkPolicy "Stack/Shared" ["allow-list"] []] [].

(** * Properties *)

Ltac by_decision := apply (bool_decide_unpack _); vm_compute; exact I.

(** ** Cutting strings *)

Lemma breakAt_app c a b : c ∉ a → breakAt c (a ++ c :: b) = Some (a, b).
Proof.
  induction a as [|x a IH]; simpl; intros Hc.
  - by rewrite decide_True.
  - apply not_elem_of_cons in Hc as [Hx Ha].
    rewrite decide_False by congruence. by rewrite IH.
Qed.

Lemma breakAt_absent c s : c ∉ s → breakAt c s = None.
Proof.
  induction s as [|x s IH]; simpl; intros Hc; [done|].
  apply not_elem_of_cons in Hc as [Hx Hs].
  rewrite decide_False by congruence. by rewrite IH.
Qed.

Lemma breakAt_Some c s a b : breakAt c s = Some (a, b) → s = a ++ c :: b ∧ c ∉ a.
Proof.
  revert a; induction s as [|x s IH]; simpl; intros a H; [done|].
  destruct (decide (x = c)) as [->|Hx].
  - injection H as <- <-. split; [done|]. apply not_elem_of_nil.
  - destruct (breakAt c s) as [[a' b']|]; simpl in H; [|done].
    injection H as <- <-. destruct (IH a' eq_refl) as [-> Ha].
    split; [done|]. apply not_elem_of_cons. split; [congruence|done].
Qed.

Lemma breakAt_None c s : breakAt c s = None → c ∉ s.
Proof.
  induction s as [|x s IH]; simpl; intros H; [apply not_elem_of_nil|].
  destruct (decide (x = c)); [done|].
  destruct (breakAt c s) as [[??]|]; [done|].
  apply not_elem_of_cons. split; [congruence|by apply IH].
Qed.

Lemma firstSegment_whole s : SLASH ∉ s → firstSegment s = s.
Proof. intros H. unfold firstSegment. by rewrite breakAt_absent. Qed.

Lemma firstSegment_cut s :
  SLASH ∈ s → ∃ rest, s = firstSegment s ++ SLASH :: rest ∧ SLASH ∉ firstSegment s.
Proof.
  intros H. unfold firstSegment.
  destruct (breakAt SLASH s) as [[a b]|] eqn:E.
  - apply breakAt_Some in E as [-> Ha]. eauto.
  - by apply breakAt_None in E.
Qed.

Lemma firstSegment_shorter s : SLASH ∈ s → firstSegment s ≠ s.
Proof.
  intros H E. destruct (firstSegment_cut s H) as (rest & Hs & _).
  rewrite E in Hs. apply (f_equal length) in Hs.
  rewrite length_app in Hs. simpl in Hs. lia.
Qed.

Lemma colon_not_in_arn : COLON ∉ list_ascii_of_string "arn".
Proof.
  intros H. repeat (apply elem_of_cons in H as [H|H]; [discriminate H|]).
  by apply elem_of_nil in H.
Qed.

Lemma parseArn_arnText p s r a ty rn :
  COLON ∉ p → COLON ∉ s → COLON ∉ r → COLON ∉ a → SLASH ∉ ty →
  parseArn (arnText p s r a ty rn) = Some (mkArnParts p s r a ty rn).
Proof.
  intros Hp Hs Hr Ha Hty. unfold parseArn, arnText.
  rewrite (breakAt_app _ _ _ colon_not_in_arn). simpl.
  rewrite (breakAt_app _ _ _ Hp). simpl.
  rewrite (breakAt_app _ _ _ Hs). simpl.
  rewrite (breakAt_app _ _ _ Hr). simpl.
  rewrite (breakAt_app _ _ _ Ha). simpl.
  by rewrite (breakAt_app _ _ _ Hty).
Qed.

(** ** Literals and resolution *)

Lemma literal_chars l : literal (Chr <$> l) = Some l.
Proof. unfold literal. by apply mapM_fmap_Some. Qed.

Lemma literal_Some s l : literal s = Some l → s = Chr <$> l.
Proof.
  intros H. symmetry. apply (mapM_fmap_Some_inv fragChar Chr s l H).
  intros [c| |] y; simpl; congruence.
Qed.

Lemma resolve_cons env x s :
  resolve env (x :: s) = a ← resolveFrag env x; b ← resolve env s; Some (a ++ b).
Proof.
  unfold resolve. simpl. destruct (resolveFrag env x); simpl; [|done].
  by destruct (mapM (resolveFrag env) s).
Qed.

Lemma resolve_app env s t :
  resolve env (s ++ t) = a ← resolve env s; b ← resolve env t; Some (a ++ b).
Proof.
  induction s as [|x s IH].
  - simpl. change (resolve env []) with (Some ([] : chars)). simpl.
    by destruct (resolve env t).
  - rewrite <- app_comm_cons, !resolve_cons, IH.
    destruct (resolveFrag env x); simpl; [|done].
    destruct (resolve env s); simpl; [|done].
    destruct (resolve env t); simpl; [|done].
    by rewrite app_assoc.
Qed.

Lemma resolve_chars env l : resolve env (Chr <$> l) = Some l.
Proof.
  induction l as [|c l IH]; [done|].
  rewrite fmap_cons, resolve_cons, IH. done.
Qed.

Lemma resolve_lit env s : resolve env (lit s) = Some (list_ascii_of_string s).
Proof. apply resolve_chars. Qed.

Lemma resolve_literal env s l : literal s = Some l → resolve env s = Some l.
Proof. intros H. rewrite (literal_Some _ _ H). apply resolve_chars. Qed.



(** The text a formatted ARN resolves to. *)
Lemma resolve_formatArn env stack c pv sv rv av tv n nv :
  resolve env (default (stackPartition stack) (partition c)) = Some pv →
  resolve env (service c) = Some sv →
  resolve env (default (stackRegion stack) (region c)) = Some rv →
  resolve env (default (stackAccount stack) (account c)) = Some av →
  resolve env (resource c) = Some tv →
  resourceName c = Some n →
  resolve env n = Some nv →
  resolve env (formatArn stack c) = Some (arnText pv sv rv av tv nv).
Proof.
  intros Hp Hs Hr Ha Ht Hn Hnv. unfold formatArn, arnText. rewrite Hn.
  by rewrite !resolve_app, !resolve_lit, Hp, Hs, Hr, Ha, Ht, Hnv.
Qed.

(** ** Splitting *)

Lemma hasChr_chars c l : c ∉ l → hasChr c (Chr <$> l) = false.
Proof.
  induction l as [|x l IH]; [done|]. intros [Hx Hl]%not_elem_of_cons.
  cbn. rewrite bool_decide_eq_false_2 by congruence. by apply IH.
Qed.

Lemma breakAtChr_app c a b :
  hasChr c a = false → breakAtChr c (a ++ Chr c :: b) = Some (a, b).
Proof.
  induction a as [|x a IH]; cbn; intros H.
  - by rewrite bool_decide_eq_true_2.
  - apply orb_false_iff in H as [Hx Ha]. rewrite Hx. cbn. by rewrite IH.
Qed.

Lemma parseArnFields_text P S R A Ty N :
  hasChr COLON P = false → hasChr COLON S = false → hasChr COLON R = false →
  hasChr COLON A = false → hasChr SLASH Ty = false →
  parseArnFields
    (P ++ Chr COLON :: S ++ Chr COLON :: R ++ Chr COLON :: A ++ Chr COLON :: Ty ++ Chr SLASH :: N)
  = Some (mkArnComponents (Some P) S (Some R) (Some A) Ty (Some N)).
Proof.
  intros HP HS HR HA HTy. unfold parseArnFields.
  rewrite (breakAtChr_app _ _ _ HP). cbn.
  rewrite (breakAtChr_app _ _ _ HS). cbn.
  rewrite (breakAtChr_app _ _ _ HR). cbn.
  rewrite (breakAtChr_app _ _ _ HA). cbn.
  by rewrite (breakAtChr_app _ _ _ HTy).
Qed.

(** A string that begins with [arn:] is split where it stands. *)
Lemma splitArn_in_place P S R A Ty N fmt :
  hasChr COLON P = false → hasChr COLON S = false → hasChr COLON R = false →
  hasChr COLON A = false → hasChr SLASH Ty = false →
  splitArn
    (lit "arn:" ++ P ++ Chr COLON :: S ++ Chr COLON :: R ++ Chr COLON :: A
       ++ Chr COLON :: Ty ++ Chr SLASH :: N) fmt
  = Some (mkArnComponents (Some P) S (Some R) (Some A) Ty (Some N)).
Proof.
  intros HP HS HR HA HTy. unfold splitArn.
  change (looksLikeArn (lit "arn:" ++ ?x)) with true. cbn [drop lit].
  change (drop 4 (lit "arn:" ++ ?x)) with x.
  by apply parseArnFields_text.
Qed.


Lemma chars_arnText p s r a ty rn :
  Chr <$> arnText p s r a ty rn
  = lit "arn:" ++ (Chr <$> p) ++ Chr COLON :: (Chr <$> s) ++ Chr COLON :: (Chr <$> r)
      ++ Chr COLON :: (Chr <$> a) ++ Chr COLON :: (Chr <$> ty) ++ Chr SLASH :: (Chr <$> rn).
Proof.
  unfold arnText. repeat (rewrite fmap_app || rewrite fmap_cons). reflexivity.
Qed.

(** On literals the split in place agrees with the parse of the text. *)
Lemma splitArn_literal p s r a ty rn fmt :
  COLON ∉ p → COLON ∉ s → COLON ∉ r → COLON ∉ a → SLASH ∉ ty →
  splitArn (Chr <$> arnText p s r a ty rn) fmt
  = litParts <$> parseArn (arnText p s r a ty rn).
Proof.
  intros Hp Hs Hr Ha Hty. rewrite parseArn_arnText by done.
  rewrite chars_arnText. by rewrite splitArn_in_place by (by apply hasChr_chars).
Qed.

(** ** Import by ARN and by name *)

(** C7: for a literal ARN [arn:p:s:r:a:ty/rn] whose resource name [rn]
    contains a slash, [fromGroupArn] succeeds, the imported name is the whole
    of [rn], everything after the resource type with its slashes, and not its
    first segment, and the imported ARN is the string that was given. *)
Theorem fromGroupArn_literal_full_name scope id p s r a ty rn :
  COLON ∉ p → COLON ∉ s → COLON ∉ r → COLON ∉ a → SLASH ∉ ty → SLASH ∈ rn →
  let arn := Chr <$> arnText p s r a ty rn in
  ∃ g, fromGroupArn scope id arn = Some g
       ∧ groupName g = Some (Chr <$> rn)
       ∧ groupName g ≠ Some (Chr <$> firstSegment rn)
       ∧ groupArn g = arn.
Proof.
  intros Hp Hs Hr Ha Hty Hrn arn. unfold fromGroupArn, arn.
  rewrite splitArn_literal, parseArn_arnText by done. cbn.
  eexists. split; [reflexivity|]. cbn. repeat split.
  intros E. injection E as E.
  apply (f_equal literal) in E. rewrite !literal_chars in E.
  injection E as E. by apply (firstSegment_shorter rn).
Qed.

Lemma fromGroupArn_literal_full_name_witness :
  let aws := list_ascii_of_string "aws" in
  let iam := list_ascii_of_string "iam" in
  let acct := list_ascii_of_string "123456789012" in
  let group := list_ascii_of_string "group" in
  let rn := list_ascii_of_string "admins/NetAdmin" in
  ((COLON ∉ aws) ∧ (COLON ∉ iam) ∧ (COLON ∉ []) ∧ (COLON ∉ acct) ∧ (SLASH ∉ group) ∧ (SLASH ∈ rn))
  ∧ ∃ g, fromGroupArn sampleScope "Admins" (lit "arn:aws:iam::123456789012:group/admins/NetAdmin")
         = Some g
         ∧ groupName g = Some (lit "admins/NetAdmin")
         ∧ groupName g ≠ Some (lit "admins")
         ∧ groupArn g = lit "arn:aws:iam::123456789012:group/admins/NetAdmin".
Proof.
  intros aws iam acct group rn.
  assert (H : (COLON ∉ aws) ∧ (COLON ∉ iam) ∧ (COLON ∉ []) ∧ (COLON ∉ acct)
              ∧ (SLASH ∉ group) ∧ (SLASH ∈ rn))
    by (repeat split; by_decision).
  split; [exact H|].
  destruct H as (H1 & H2 & H3 & H4 & H5 & H6).
  exact (fromGroupArn_literal_full_name sampleScope "Admins" aws iam [] acct group rn
           H1 H2 H3 H4 H5 H6).
Defined.




(** C6: [fromGroupName] is [fromGroupArn] on the ARN formatted with service
    [iam], empty region, resource [group] and the given name, that is on
    [arn:<partition>:iam::<account>:group/<name>] with partition and account
    of the stack. That ARN is split into just these components, the imported
    ARN is that ARN, and the imported name is the name given, with or
    without a slash in it. The stack has a partition, and its partition and
    account hold no colon. *)
Theorem fromGroupName_is_fromGroupArn scope id (n : Str) :
  stackPartition (stackOf scope) ≠ [] →
  hasChr COLON (stackPartition (stackOf scope)) = false →
  hasChr COLON (stackAccount (stackOf scope)) = false →
  let arn :=
    lit "arn:" ++ stackPartition (stackOf scope) ++ lit ":iam::"
      ++ stackAccount (stackOf scope) ++ lit ":group/" ++ n in
  formatArn (stackOf scope) (importArnComponents n) = arn
  ∧ fromGroupName scope id n = fromGroupArn scope id arn
  ∧ splitArn arn SLASH_RESOURCE_NAME
    = Some (mkArnComponents (Some (stackPartition (stackOf scope))) (lit "iam")
              (Some (lit "")) (Some (stackAccount (stackOf scope))) (lit "group") (Some n))
  ∧ ∃ g, fromGroupName scope id n = Some g
         ∧ groupArn g = arn
         ∧ groupName g = Some n
         ∧ principalAccount (base g) = Some (stackAccount (stackOf scope)).
Proof.
  intros _ Hp Ha arn.
  assert (Hfmt : formatArn (stackOf scope) (importArnComponents n) = arn) by reflexivity.
  assert (Hsplit : splitArn arn SLASH_RESOURCE_NAME
                   = Some (mkArnComponents (Some (stackPartition (stackOf scope))) (lit "iam")
                             (Some (lit "")) (Some (stackAccount (stackOf scope)))
                             (lit "group") (Some n))).
  { exact (splitArn_in_place (stackPartition (stackOf scope)) (lit "iam") (lit "")
             (stackAccount (stackOf scope)) (lit "group") n SLASH_RESOURCE_NAME
             Hp eq_refl eq_refl Ha eq_refl). }
  split; [done|]. split; [by unfold fromGroupName; rewrite Hfmt|]. split; [done|].
  unfold fromGroupName, fromGroupArn. rewrite Hfmt, Hsplit. cbn.
  eexists. by split.
Qed.

Lemma fromGroupName_is_fromGroupArn_witness :
  let n := lit "admins/NetAdmin" in
  let arn :=
    lit "arn:" ++ stackPartition (stackOf agnosticScope) ++ lit ":iam::"
      ++ stackAccount (stackOf agnosticScope) ++ lit ":group/" ++ n in
  (stackPartition (stackOf agnosticScope) ≠ []
   ∧ hasChr COLON (stackPartition (stackOf agnosticScope)) = false
   ∧ hasChr COLON (stackAccount (stackOf agnosticScope)) = false)
  ∧ formatArn (stackOf agnosticScope) (importArnComponents n) = arn
  ∧ fromGroupName agnosticScope "Admins" n = fromGroupArn agnosticScope "Admins" arn
  ∧ splitArn arn SLASH_RESOURCE_NAME
    = Some (mkArnComponents (Some (stackPartition (stackOf agnosticScope))) (lit "iam")
              (Some (lit "")) (Some (stackAccount (stackOf agnosticScope))) (lit "group")
              (Some n))
  ∧ ∃ g, fromGroupName agnosticScope "Admins" n = Some g
         ∧ groupArn g = arn
         ∧ groupName g = Some n
         ∧ principalAccount (base g) = Some (stackAccount (stackOf agnosticScope)).
Proof.
  intros n arn.
  assert (H : stackPartition (stackOf agnosticScope) ≠ []
              ∧ hasChr COLON (stackPartition (stackOf agnosticScope)) = false
              ∧ hasChr COLON (stackAccount (stackOf agnosticScope)) = false)
    by (split; [discriminate|split; reflexivity]).
  split; [exact H|]. destruct H as (H1 & H2 & H3).
  exact (fromGroupName_is_fromGroupArn agnosticScope "Admins" n H1 H2 H3).
Defined.

(** ** The ARN of an owned group *)

Lemma groupArnComponents_resourceName path n :
  resourceName (groupArnComponents path n) = Some (stripLeadingSlash path ++ n).
Proof.
  destruct path as [[|[c| |] rest]|]; simpl; try done.
  case_bool_decide as Hc; by destruct (decide (c = SLASH)).
Qed.

(** C5: the components from which the ARN of an owned group is computed have
    an empty region and, as resource name, the path with a single leading
    slash stripped (nothing for an absent path) followed by the physical
    name; path [/admins/] and name [NetAdmin] give [admins/NetAdmin]. *)
Theorem Group_arn_resource_name {PS : Type} (mpArn : IManagedPolicy → Str)
    (nameAttr : Str → Str) (arnAttr : Str → ArnComponents → Str)
    (scope : Construct) (id : string) (props : GroupProps.t) (w : @World PS) :
  let '(this, cfn, _) := Group_new mpArn nameAttr arnAttr scope id props w in
  let n := physicalName (base this) in
  let c := groupArnComponents (GroupProps.path props) n in
  n = Resource_physicalName (childPath scope id) (GroupProps.groupName props)
  ∧ groupArn this = arnAttr (attrArn cfn) c
  ∧ resourceName c = Some (stripLeadingSlash (GroupProps.path props) ++ n)
  ∧ region c = Some (lit "")
  ∧ resourceName (groupArnComponents (Some (lit "/admins/")) (lit "NetAdmin"))
    = Some (lit "admins/NetAdmin").
Proof.
  simpl. repeat split. apply groupArnComponents_resourceName.
Qed.

(** The text of the ARN when it is formatted from these components: the
    region field is empty and the resource name is read back whole. *)
Lemma Group_arn_text env stack path n pv av sv nv :
  resolve env (stackPartition stack) = Some pv →
  resolve env (stackAccount stack) = Some av →
  resolve env (stripLeadingSlash path) = Some sv →
  resolve env n = Some nv →
  COLON ∉ pv → COLON ∉ av →
  ∃ text parts,
    resolve env (formatArn stack (groupArnComponents path n)) = Some text
    ∧ parseArn text = Some parts
    ∧ pRegion parts = [] ∧ pResourceName parts = sv ++ nv.
Proof.
  intros Hp Ha Hs Hn Hpv Hav.
  eexists _, _. split; [|split].
  - apply (resolve_formatArn env stack _ pv (list_ascii_of_string "iam") [] av
             (list_ascii_of_string "group") (stripLeadingSlash path ++ n) (sv ++ nv));
      try done; try apply resolve_lit.
    + apply groupArnComponents_resourceName.
    + by rewrite resolve_app, Hs, Hn.
  - apply parseArn_arnText; try done; by_decision.
  - done.
Qed.

(** ** The ledger of managed policies *)

Lemma find_present (P : IManagedPolicy) mps :
  P ∈ mps → find (λ mp, bool_decide (mp = P)) mps = Some P.
Proof.
  induction mps as [|x mps IH]; intros H; [by apply elem_of_nil in H|].
  simpl. destruct (decide (x = P)) as [->|Hx].
  - by rewrite bool_decide_eq_true_2.
  - rewrite bool_decide_eq_false_2 by done.
    apply elem_of_cons in H as [H|H]; [congruence|auto].
Qed.

Lemma find_absent (P : IManagedPolicy) mps :
  P ∉ mps → find (λ mp, bool_decide (mp = P)) mps = None.
Proof.
  induction mps as [|x mps IH]; intros H; [done|].
  apply not_elem_of_cons in H as [Hx H].
  simpl. rewrite bool_decide_eq_false_2 by congruence. auto.
Qed.

Section Ledger.
Context {PolicyStatement : Type}.
Implicit Types (this : GroupObj) (w : @World PolicyStatement).
Implicit Types (P : IManagedPolicy) (ps : list IManagedPolicy).

(** A reference already in the ledger: nothing changes at all. *)
Lemma addManagedPolicy_present P this w :
  P ∈ managedPolicies this → addManagedPolicy P this w = (this, w).
Proof.
  destruct this as [b n a|b n a mps]; simpl; [done|].
  intros H. by rewrite find_present.
Qed.

Lemma addManagedPolicy_ledger P this w :
  managedPolicies (addManagedPolicy P this w).1
  = match this with
    | Import _ _ _ => []
    | Group _ _ _ mps => if bool_decide (P ∈ mps) then mps else mps ++ [P]
    end.
Proof.
  destruct this as [b n a|b n a mps]; simpl; [done|].
  case_bool_decide as H.
  - by rewrite find_present.
  - by rewrite find_absent.
Qed.

Lemma addManagedPolicy_prefix P this w :
  managedPolicies this `prefix_of` managedPolicies (addManagedPolicy P this w).1.
Proof.
  rewrite addManagedPolicy_ledger. destruct this as [b n a|b n a mps]; simpl; [done|].
  case_bool_decide; [done|]. by apply prefix_app_r.
Qed.

Lemma addManagedPolicies_prefix ps this w :
  managedPolicies this `prefix_of` managedPolicies (addManagedPolicies ps this w).1.
Proof.
  unfold addManagedPolicies. revert this w.
  induction ps as [|p ps IH]; intros this w; simpl; [done|].
  destruct (addManagedPolicy p this w) as [this' w'] eqn:E. simpl.
  etrans; [|apply IH].
  pose proof (addManagedPolicy_prefix p this w) as H. by rewrite E in H.
Qed.

(** Additions keep a ledger free of duplicates free of duplicates. *)
Lemma addManagedPolicy_NoDup P this w :
  NoDup (managedPolicies this) → NoDup (managedPolicies (addManagedPolicy P this w).1).
Proof.
  rewrite addManagedPolicy_ledger. destruct this as [b n a|b n a mps]; simpl; [done|].
  intros H. case_bool_decide as HP; [done|].
  apply NoDup_app. repeat split; [done| |apply NoDup_singleton].
  intros x Hx Hx'. apply list_elem_of_singleton in Hx'. by subst.
Qed.

Lemma addManagedPolicies_NoDup ps this w :
  NoDup (managedPolicies this) → NoDup (managedPolicies (addManagedPolicies ps this w).1).
Proof.
  unfold addManagedPolicies. revert this w.
  induction ps as [|p ps IH]; intros this w H; simpl; [done|].
  destruct (addManagedPolicy p this w) as [this' w'] eqn:E. simpl.
  apply IH. pose proof (addManagedPolicy_NoDup p this w H) as H'. by rewrite E in H'.
Qed.
End Ledger.

(** A group built from a batch without duplicates never holds a reference
    twice, whatever is added later. *)
Lemma Group_new_NoDup {PS : Type} (mpArn : IManagedPolicy → Str)
    (nameAttr : Str → Str) (arnAttr : Str → ArnComponents → Str)
    scope id props (w : @World PS) later :
  NoDup (default [] (GroupProps.managedPolicies props)) →
  let '(this, _, w1) := Group_new mpArn nameAttr arnAttr scope id props w in
  NoDup (managedPolicies (addManagedPolicies later this w1).1).
Proof. intros H. simpl. by apply addManagedPolicies_NoDup. Qed.

(** C1: the constructor copies its initial batch into the ledger without the
    check that [addManagedPolicy] makes. Handed the same reference twice it
    builds a ledger that holds the reference twice, and no sequence of later
    additions removes the duplicate. *)
Theorem Group_new_keeps_duplicates {PS : Type} (mpArn : IManagedPolicy → Str)
    (nameAttr : Str → Str) (arnAttr : Str → ArnComponents → Str)
    scope id name path (w : @World PS) (P : IManagedPolicy) (later : list IManagedPolicy) :
  let props := GroupProps.mk name (Some [P; P]) path in
  let '(this, _, w1) := Group_new mpArn nameAttr arnAttr scope id props w in
  managedPolicies this = [P; P]
  ∧ ¬ NoDup (managedPolicies this)
  ∧ ¬ NoDup (managedPolicies (addManagedPolicies later this w1).1).
Proof.
  simpl. set (this := Group _ _ _ _). set (w1 := managedPoliciesExceededWarning _ _).
  assert (Hdup : ∀ k, ¬ NoDup ([P; P] ++ k)).
  { intros k H. simpl in H. apply NoDup_cons in H as [H _]. apply H. left. }
  split; [done|]. split; [apply (Hdup [])|].
  destruct (addManagedPolicies_prefix later this w1) as [k ->]. apply Hdup.
Qed.

(** ** Imported groups *)




(** ** The capacity warning *)

(** C4: the check adds one warning to the diagnostics exactly when the ledger
    holds more than 10 policies and touches nothing else; the constructor
    runs it once on the whole initial batch, so a batch of 11 gives one
    warning; an addition that appends runs it once on the new ledger, and an
    addition of a reference already present runs nothing. The policy is in
    the ledger whether or not a warning was given. *)
Theorem capacity_warning {PS : Type} (mpArn : IManagedPolicy → Str)
    (nameAttr : Str → Str) (arnAttr : Str → ArnComponents → Str)
    scope id props (w : @World PS) :
  (∀ this,
     managedPoliciesExceededWarning this w
     = mkWorld (policies w) (warnings w ++ capacityWarnings this))
  ∧ (let '(this, _, w1) := Group_new mpArn nameAttr arnAttr scope id props w in
     let batch := default [] (GroupProps.managedPolicies props) in
     managedPolicies this = batch
     ∧ w1 = mkWorld (policies w) (warnings w ++ capacityWarnings this)
     ∧ length (warnings w1)
       = length (warnings w) + (if bool_decide (10 < length batch) then 1 else 0))
  ∧ (∀ b n a mps (P : IManagedPolicy),
       let '(this', w') := addManagedPolicy P (Group b n a mps) w in
       if bool_decide (P ∈ mps) then this' = Group b n a mps ∧ w' = w
       else this' = Group b n a (mps ++ [P])
            ∧ w' = mkWorld (policies w) (warnings w ++ capacityWarnings this')
            ∧ length (warnings w')
              = length (warnings w) + (if bool_decide (10 < S (length mps)) then 1 else 0))
  ∧ (let props11 :=
       GroupProps.mk (GroupProps.groupName props) (Some (seq 1 11)) (GroupProps.path props) in
     let '(this, _, w1) := Group_new mpArn nameAttr arnAttr scope id props11 w in
     ∃ message, warnings w1 = warnings w ++ [(childPath scope id, message)]).
Proof.
  assert (Hcheck : ∀ this (w0 : @World PS),
            managedPoliciesExceededWarning this w0
            = mkWorld (policies w0) (warnings w0 ++ capacityWarnings this)).
  { intros this w0. unfold managedPoliciesExceededWarning, capacityWarnings, addWarning.
    case_bool_decide; [done|]. rewrite app_nil_r. by destruct w0. }
  split; [intros; apply Hcheck|]. split; [|split].
  - simpl. split; [done|]. split; [apply Hcheck|].
    rewrite Hcheck. simpl. rewrite length_app. unfold capacityWarnings. simpl.
    by case_bool_decide.
  - intros b n a mps P. simpl. case_bool_decide as HP.
    + by rewrite find_present.
    + rewrite find_absent by done. split; [done|]. split; [apply Hcheck|].
      rewrite Hcheck. simpl. rewrite length_app. unfold capacityWarnings. simpl.
      rewrite length_app. simpl. replace (length mps + 1) with (S (length mps)) by lia.
      by case_bool_decide.
  - lazy beta iota zeta delta [Group_new]. rewrite Hcheck. eexists. reflexivity.
Qed.

(** ** The lazy list of managed-policy ARNs *)

Section Additions.
Context {PolicyStatement : Type}.
Implicit Types (this : GroupObj) (w : @World PolicyStatement).

Lemma addManagedPolicy_isGroup (P : IManagedPolicy) this w :
  isGroup this → isGroup (addManagedPolicy P this w).1.
Proof.
  destruct this as [b n a|b n a mps]; simpl; [done|]. intros _.
  by destruct (find _ mps).
Qed.

Lemma addManagedPolicy_elem (P : IManagedPolicy) this w :
  isGroup this → P ∈ managedPolicies (addManagedPolicy P this w).1.
Proof.
  rewrite addManagedPolicy_ledger. destruct this as [b n a|b n a mps]; simpl; [done|].
  intros _. case_bool_decide; [done|]. apply elem_of_app. right. left.
Qed.

(** Whatever is added to an owned group is in its ledger afterwards. *)
Lemma addManagedPolicies_elem (ps : list IManagedPolicy) this w :
  isGroup this → Forall (λ p, p ∈ managedPolicies (addManagedPolicies ps this w).1) ps.
Proof.
  unfold addManagedPolicies. revert this w.
  induction ps as [|p ps IH]; intros this w Hg; [constructor|]. simpl.
  pose proof (addManagedPolicy_isGroup p this w Hg) as Hg'.
  pose proof (addManagedPolicy_elem p this w Hg) as Hp.
  destruct (addManagedPolicy p this w) as [this' w']. simpl in *.
  constructor; [|by apply IH].
  destruct (addManagedPolicies_prefix ps this' w') as [k Hk].
  unfold addManagedPolicies in Hk. rewrite Hk. apply elem_of_app. by left.
Qed.
End Additions.

(** C9: the [managedPolicyArns] attribute of the declared resource is a
    producer over the group: run on the group as it is at emission it gives
    the ARNs of the policies then in the ledger, in order, so every policy
    added after construction is among them; the emitted template has the
    list under [ManagedPolicyArns] when the ledger is not empty and has no
    such entry at all when it is empty. *)
Theorem managedPolicyArns_lazy {PS : Type} (mpArn : IManagedPolicy → Str)
    (nameAttr : Str → Str) (arnAttr : Str → ArnComponents → Str)
    scope id props (w : @World PS) (later : list IManagedPolicy) :
  let '(this0, cfn, w1) := Group_new mpArn nameAttr arnAttr scope id props w in
  let emitted this := property "ManagedPolicyArns" (toCloudFormation cfn this) in
  (∀ this, produce (cfnManagedPolicyArns cfn) this = mpArn <$> managedPolicies this)
  ∧ (∀ this,
       match managedPolicies this with
       | [] => emitted this = None
               ∧ "ManagedPolicyArns" ∉ (toCloudFormation cfn this).*1
       | mps => emitted this = Some (VList (mpArn <$> mps))
       end)
  ∧ (let this1 := (addManagedPolicies later this0 w1).1 in
     produce (cfnManagedPolicyArns cfn) this1 = mpArn <$> managedPolicies this1
     ∧ Forall (λ p, mpArn p ∈ produce (cfnManagedPolicyArns cfn) this1) later).
Proof.
  lazy beta iota zeta delta [Group_new].
  set (this0 := Group _ _ _ _). set (w1 := managedPoliciesExceededWarning _ _).
  split; [done|]. split.
  - intros this. unfold toCloudFormation, resolveLazyList, property. simpl.
    destruct (managedPolicies this) as [|p mps]; simpl.
    + destruct (GroupProps.path props); simpl.
      * split; [done|]. intros H. repeat (apply elem_of_cons in H as [H|H]; [done|]).
        by apply elem_of_nil in H.
      * split; [done|]. intros H. repeat (apply elem_of_cons in H as [H|H]; [done|]).
        by apply elem_of_nil in H.
    + done.
  - simpl. split; [done|].
    pose proof (addManagedPolicies_elem later this0 w1 I) as H.
    eapply Forall_impl; [exact H|]. intros p Hp. simpl in Hp.
    by apply list_elem_of_fmap_2.
Qed.

(** ** Inline statements *)

Lemma alter_last {A} (f : A → A) (l : list A) (x : A) :
  alter f (length l) (l ++ [x]) = l ++ [f x].
Proof. induction l as [|y l IH]; [done|]. simpl. f_equal. exact IH. Qed.

(** A policy that holds no group yet takes the group down and enters the
    group's record. *)
Lemma Policy_attachToGroup_fresh {PS : Type} (l : list (@Policy PS)) path ss
    (g : GroupObj) ws :
  Policy_attachToGroup (length l) g (mkWorld (l ++ [mkPolicy path ss []]) ws)
  = (recordAttached (length l) g, mkWorld (l ++ [mkPolicy path ss [node (base g)]]) ws).
Proof.
  unfold Policy_attachToGroup, Policy_holdsGroup, Policy_recordGroup.
  cbn [policies warnings]. rewrite list_lookup_middle by done. cbn [groups].
  rewrite bool_decide_eq_false_2 by apply not_elem_of_nil.
  by rewrite alter_last.
Qed.

Lemma recordAttached_facts (p : PolicyRef) (g : GroupObj) :
  node (base (recordAttached p g)) = node (base g)
  ∧ defaultPolicy (base (recordAttached p g)) = defaultPolicy (base g)
  ∧ attachedPolicies (base (recordAttached p g))
    = AttachedPolicies_attach p (attachedPolicies (base g))
  ∧ groupName (recordAttached p g) = groupName g
  ∧ groupArn (recordAttached p g) = groupArn g
  ∧ managedPolicies (recordAttached p g) = managedPolicies g.
Proof. by destruct g. Qed.

Lemma withDefaultPolicy_facts (p : PolicyRef) (this : GroupObj) :
  defaultPolicy (base (withDefaultPolicy p this)) = Some p
  ∧ node (base (withDefaultPolicy p this)) = node (base this)
  ∧ groupName (withDefaultPolicy p this) = groupName this
  ∧ groupArn (withDefaultPolicy p this) = groupArn this
  ∧ managedPolicies (withDefaultPolicy p this) = managedPolicies this
  ∧ attachedPolicies (base (withDefaultPolicy p this)) = attachedPolicies (base this).
Proof. by destruct this. Qed.

Lemma AttachedPolicies_attach_elem (p : PolicyRef) (l : list PolicyRef) :
  p ∈ AttachedPolicies_attach p l.
Proof.
  unfold AttachedPolicies_attach. case_bool_decide; [done|].
  apply elem_of_app. right. left.
Qed.

(** The first call: the policy is created, made the default policy, and
    attached. *)
Lemma addToPrincipalPolicy_first {PS : Type} (s : PS) (this : GroupObj) (w : @World PS) :
  defaultPolicy (base this) = None →
  addToPrincipalPolicy s this w
  = (mkResult true (length (policies w)),
     recordAttached (length (policies w)) (withDefaultPolicy (length (policies w)) this),
     mkWorld
       (policies w
          ++ [mkPolicy (node (base this) +:+ "/" +:+ "DefaultPolicy") [s] [node (base this)]])
       (warnings w)).
Proof.
  intros Hd. unfold addToPrincipalPolicy. rewrite Hd. unfold Policy_new.
  fold (withDefaultPolicy (length (policies w)) this).
  rewrite Policy_attachToGroup_fresh.
  destruct (withDefaultPolicy_facts (length (policies w)) this) as (_ & -> & _).
  unfold Policy_addStatements. cbn [policies warnings]. by rewrite alter_last.
Qed.

(** A later call: the default policy that is there is handed back. *)
Lemma addToPrincipalPolicy_later {PS : Type} (s : PS) (this : GroupObj) (w : @World PS) p :
  defaultPolicy (base this) = Some p →
  addToPrincipalPolicy s this w = (mkResult true p, this, Policy_addStatements p [s] w).
Proof. intros Hd. unfold addToPrincipalPolicy. by rewrite Hd. Qed.

(** C3: [addToPrincipalPolicy] returns with [statementAdded] set and with the
    default policy of the group as [policyDependable]. When the group has no
    default policy yet, the call creates one as a new object under the group,
    holding the statement, and attaches it to the group by the path of
    [attachInlinePolicy]: the policy holds the group and the group has the
    policy in its record of attached policies. When the group has a default
    policy, the call hands back that same object, creates none and leaves the
    record as it is, and so does every call that follows. Name and ARN of the
    group are untouched. *)
Theorem addToPrincipalPolicy_default_policy {PS : Type} (statement next : PS)
    (this : GroupObj) (w : @World PS) :
  let '(r, this', w') := addToPrincipalPolicy statement this w in
  statementAdded r = true
  ∧ defaultPolicy (base this') = Some (policyDependable r)
  ∧ match defaultPolicy (base this) with
    | None =>
        policyDependable r = length (policies w)
        ∧ policies w'
          = policies w
              ++ [mkPolicy (node (base this) +:+ "/" +:+ "DefaultPolicy") [statement]
                    [node (base this)]]
        ∧ attachedPolicies (base this')
          = AttachedPolicies_attach (policyDependable r) (attachedPolicies (base this))
        ∧ policyDependable r ∈ attachedPolicies (base this')
    | Some p =>
        policyDependable r = p
        ∧ length (policies w') = length (policies w)
        ∧ attachedPolicies (base this') = attachedPolicies (base this)
    end
  ∧ groupName this' = groupName this ∧ groupArn this' = groupArn this
  ∧ managedPolicies this' = managedPolicies this
  ∧ warnings w' = warnings w
  ∧ (let '(r2, this'', w'') := addToPrincipalPolicy next this' w' in
     statementAdded r2 = true
     ∧ policyDependable r2 = policyDependable r
     ∧ defaultPolicy (base this'') = Some (policyDependable r)
     ∧ attachedPolicies (base this'') = attachedPolicies (base this')
     ∧ length (policies w'') = length (policies w')).
Proof.
  destruct (defaultPolicy (base this)) as [p|] eqn:Hd.
  - rewrite (addToPrincipalPolicy_later statement this w p Hd).
    rewrite (addToPrincipalPolicy_later next this _ p Hd).
    unfold Policy_addStatements. cbn [policies warnings policyDependable statementAdded].
    rewrite !length_alter. by repeat split.
  - rewrite (addToPrincipalPolicy_first statement this w Hd).
    set (p := length (policies w)).
    destruct (withDefaultPolicy_facts p this) as (Hdp & Hnode & Hn & Ha & Hm & Hat).
    destruct (recordAttached_facts p (withDefaultPolicy p this))
      as (Hnode' & Hdp' & Hat' & Hn' & Ha' & Hm').
    rewrite Hdp in Hdp'. rewrite Hat in Hat'.
    rewrite (addToPrincipalPolicy_later next _ _ p Hdp').
    unfold Policy_addStatements. cbn [policies warnings policyDependable statementAdded].
    rewrite length_alter.
    repeat split; try congruence.
    rewrite Hat'. apply AttachedPolicies_attach_elem.
Qed.

(** C10: [addToPolicy] returns [true] on every group and every statement. *)
Theorem addToPolicy_true {PS : Type} (statement : PS) (this : GroupObj) (w : @World PS) :
  (addToPolicy statement this w).1.1 = true
  ∧ (addToPolicy statement this w).1.1
    = statementAdded (addToPrincipalPolicy statement this w).1.1.
Proof.
  unfold addToPolicy.
  destruct (defaultPolicy (base this)) as [p|] eqn:Hd.
  - by rewrite (addToPrincipalPolicy_later statement this w p Hd).
  - by rewrite (addToPrincipalPolicy_first statement this w Hd).
Qed.

(** * Further properties of the ledger *)

Section LedgerSteps.
Context {PolicyStatement : Type}.
Implicit Types (this : GroupObj) (w : @World PolicyStatement).
Implicit Types (P : IManagedPolicy) (ps mps : list IManagedPolicy).

Lemma addManagedPolicy_Group P b n a mps w :
  addManagedPolicy P (Group b n a mps) w
  = if bool_decide (P ∈ mps) then (Group b n a mps, w)
    else (Group b n a (mps ++ [P]),
          managedPoliciesExceededWarning (Group b n a (mps ++ [P])) w).
Proof.
  simpl. case_bool_decide as H; [by rewrite find_present|by rewrite find_absent].
Qed.

Lemma addManagedPolicies_cons P ps this w :
  addManagedPolicies (P :: ps) this w
  = addManagedPolicies ps (addManagedPolicy P this w).1 (addManagedPolicy P this w).2.
Proof. unfold addManagedPolicies. simpl. by destruct (addManagedPolicy P this w). Qed.

Lemma addManagedPolicies_app ps qs this w :
  addManagedPolicies (ps ++ qs) this w
  = addManagedPolicies qs (addManagedPolicies ps this w).1 (addManagedPolicies ps this w).2.
Proof.
  unfold addManagedPolicies. rewrite foldl_app.
  by destruct (foldl _ (this, w) ps).
Qed.

(** The group that comes out of a sequence of additions does not depend on
    the surroundings it was run in. *)
Lemma addManagedPolicies_group_only ps this w (w' : @World PolicyStatement) :
  (addManagedPolicies ps this w).1 = (addManagedPolicies ps this w').1.
Proof.
  revert this w w'. induction ps as [|p ps IH]; intros this w w'; [done|].
  rewrite !addManagedPolicies_cons.
  destruct this as [b n a|b n a mps].
  - simpl. apply IH.
  - rewrite !addManagedPolicy_Group. case_bool_decide; simpl; apply IH.
Qed.

(** References that are new and distinct are all appended, in the order
    given. *)
Lemma addManagedPolicies_fresh ps b n a mps w :
  NoDup ps → (∀ x, x ∈ ps → x ∉ mps) →
  (addManagedPolicies ps (Group b n a mps) w).1 = Group b n a (mps ++ ps).
Proof.
  revert mps w. induction ps as [|p ps IH]; intros mps w Hnd Hfresh.
  - by rewrite app_nil_r.
  - apply NoDup_cons in Hnd as [Hp Hnd].
    rewrite addManagedPolicies_cons, addManagedPolicy_Group.
    rewrite bool_decide_eq_false_2 by (apply Hfresh; left). simpl.
    rewrite IH; [by rewrite <- app_assoc|done|].
    intros x Hx. rewrite elem_of_app, list_elem_of_singleton.
    intros [Hm| ->]; [|done]. by apply (Hfresh x); [right|].
Qed.

(** A ledger that ends within the quota never saw a warning. *)
Lemma addManagedPolicies_quiet ps this w :
  (length (managedPolicies (addManagedPolicies ps this w).1) ≤ 10)%nat →
  (addManagedPolicies ps this w).2 = w.
Proof.
  revert this w. induction ps as [|p ps IH]; intros this w Hlen; [done|].
  rewrite addManagedPolicies_cons in Hlen |- *.
  pose proof (addManagedPolicies_prefix ps (addManagedPolicy p this w).1
                (addManagedPolicy p this w).2) as Hpre.
  apply prefix_length in Hpre.
  rewrite IH by done.
  destruct this as [b n a|b n a mps]; [done|].
  rewrite addManagedPolicy_Group in Hpre, Hlen |- *.
  destruct (bool_decide (p ∈ mps)); [done|].
  cbn [fst snd managedPolicies] in *.
  unfold managedPoliciesExceededWarning. cbn [managedPolicies].
  rewrite bool_decide_eq_false_2; [done|lia].
Qed.
(** On an imported group the ledger stays empty. *)
Lemma imported_ledger_empty ps b n a w :
  managedPolicies (addManagedPolicies ps (Import b n a) w).1 = [].
Proof. induction ps as [|p ps IH]; [done|]. by rewrite addManagedPolicies_cons. Qed.

(** On an owned group only the ledger changes, by a run of the references
    given. *)
Lemma ledger_shape b n a mps ps w :
  ∃ added,
    (addManagedPolicies ps (Group b n a mps) w).1 = Group b n a (mps ++ added)
    ∧ added `sublist_of` ps.
Proof.
  revert mps w. induction ps as [|p ps IH]; intros mps w.
  - exists []. by rewrite app_nil_r.
  - rewrite addManagedPolicies_cons, addManagedPolicy_Group.
    case_bool_decide as Hp; cbn [fst snd].
    + destruct (IH mps w) as (added & Hg & Hsub). exists added.
      split; [done|]. by apply sublist_cons.
    + destruct (IH (mps ++ [p]) (managedPoliciesExceededWarning (Group b n a (mps ++ [p])) w))
        as (added & Hg & Hsub).
      exists (p :: added). rewrite Hg, <- app_assoc. split; [done|]. by apply sublist_skip.
Qed.
End LedgerSteps.

(** X1: a second call of [addManagedPolicy] with the same reference, right
    after the first, changes nothing: the group, the ledger and the
    diagnostics are as the first call left them, so no second warning is
    given for it. *)
Theorem addManagedPolicy_twice {PS : Type} (P : IManagedPolicy) (this : GroupObj)
    (w : @World PS) :
  addManagedPolicy P (addManagedPolicy P this w).1 (addManagedPolicy P this w).2
  = addManagedPolicy P this w.
Proof.
  destruct this as [b n a|b n a mps]; [done|].
  rewrite addManagedPolicy_Group. case_bool_decide as H; cbn [fst snd].
  - rewrite addManagedPolicy_Group. by rewrite bool_decide_eq_true_2.
  - rewrite addManagedPolicy_Group. rewrite bool_decide_eq_true_2; [done|].
    apply elem_of_app. right. left.
Qed.

(** X2: after any sequence of additions to an owned group the ledger is the
    old ledger followed by the references that were added and were not in it,
    each of them once and in the order of the calls; nothing is removed or
    moved, and the rest of the group is as before. *)
Theorem ledger_after_additions {PS : Type} b n a (mps ps : list IManagedPolicy)
    (w : @World PS) :
  ∃ added,
    (addManagedPolicies ps (Group b n a mps) w).1 = Group b n a (mps ++ added)
    ∧ added `sublist_of` ps
    ∧ NoDup added
    ∧ ∀ x, x ∈ added ↔ x ∈ ps ∧ x ∉ mps.
Proof.
  revert mps w. induction ps as [|p ps IH]; intros mps w.
  - exists []. rewrite app_nil_r. split; [done|]. split; [done|]. split; [constructor|].
    intros x. split; [by intros H%elem_of_nil|by intros [H%elem_of_nil _]].
  - rewrite addManagedPolicies_cons, addManagedPolicy_Group.
    case_bool_decide as Hp; cbn [fst snd].
    + destruct (IH mps w) as (added & Hg & Hsub & Hnd & Hin).
      exists added. split; [done|]. split; [by apply sublist_cons|]. split; [done|].
      intros x. rewrite Hin. split.
      * intros [Hx Hm]. split; [by right|done].
      * intros [Hx Hm]. split; [|done].
        apply elem_of_cons in Hx as [->|Hx]; done.
    + destruct (IH (mps ++ [p]) (managedPoliciesExceededWarning (Group b n a (mps ++ [p])) w))
        as (added & Hg & Hsub & Hnd & Hin).
      exists (p :: added). rewrite Hg, <- app_assoc.
      split; [done|]. split; [by apply sublist_skip|]. split.
      { apply NoDup_cons. split; [|done]. intros Hx. apply Hin in Hx as [_ Hx].
        apply Hx, elem_of_app. right. left. }
      intros x. split.
      * intros Hx. apply elem_of_cons in Hx as [->|Hx]; [split; [left|done]|].
        apply Hin in Hx as [Hx Hm]. split; [by right|].
        intros Hm'. apply Hm, elem_of_app. by left.
      * intros [Hx Hm]. destruct (decide (x = p)) as [->|Hne]; [left|]. right.
        apply Hin. apply elem_of_cons in Hx as [->|Hx]; [done|]. split; [done|].
        rewrite elem_of_app, list_elem_of_singleton. tauto.
Qed.

(** X3: a ledger without duplicates stays without duplicates under any
    sequence of additions, and grows by at most the number of calls. *)
Theorem duplicate_free_ledger_kept {PS : Type} (this : GroupObj) (w : @World PS)
    (ps : list IManagedPolicy) :
  NoDup (managedPolicies this) →
  NoDup (managedPolicies (addManagedPolicies ps this w).1)
  ∧ (length (managedPolicies (addManagedPolicies ps this w).1)
     ≤ length (managedPolicies this) + length ps)%nat.
Proof.
  intros Hnd. split; [by apply addManagedPolicies_NoDup|].
  destruct this as [b n a|b n a mps].
  - rewrite imported_ledger_empty. simpl. lia.
  - destruct (ledger_shape b n a mps ps w) as (added & -> & Hsub).
    simpl. rewrite length_app. apply sublist_length in Hsub. lia.
Qed.

Lemma duplicate_free_ledger_kept_witness :
  NoDup (managedPolicies (sampleGroup [1; 2]))
  ∧ NoDup (managedPolicies (addManagedPolicies [2; 3; 3] (sampleGroup [1; 2]) emptyWorld).1)
  ∧ (length (managedPolicies (addManagedPolicies [2; 3; 3] (sampleGroup [1; 2]) emptyWorld).1)
     ≤ length (managedPolicies (sampleGroup [1; 2])) + length [2; 3; 3])%nat.
Proof.
  assert (H : NoDup (managedPolicies (sampleGroup [1; 2]))) by by_decision.
  split; [exact H|].
  exact (duplicate_free_ledger_kept (sampleGroup [1; 2]) emptyWorld [2; 3; 3] H).
Defined.

Ltac nothing_new :=
  exists []; rewrite app_nil_r; split; [done|]; split; [constructor|simpl; lia].

Lemma addManagedPolicy_frame {PS : Type} (P : IManagedPolicy) (this : GroupObj)
    (w : @World PS) :
  base (addManagedPolicy P this w).1 = base this
  ∧ groupName (addManagedPolicy P this w).1 = groupName this
  ∧ groupArn (addManagedPolicy P this w).1 = groupArn this
  ∧ policies (addManagedPolicy P this w).2 = policies w
  ∧ ∃ new, warnings (addManagedPolicy P this w).2 = warnings w ++ new
           ∧ Forall (λ m, m.1 = node (base this)) new
           ∧ (length new ≤ 1)%nat.
Proof.
  destruct this as [b n a|b n a mps].
  - repeat split; try done. nothing_new.
  - rewrite addManagedPolicy_Group. case_bool_decide as HP; cbn [fst snd].
    + repeat split; try done. nothing_new.
    + unfold managedPoliciesExceededWarning. case_bool_decide; cbn.
      * repeat split; try done. eexists. split; [reflexivity|].
        split; [by repeat constructor|simpl; lia].
      * repeat split; try done. nothing_new.
Qed.

(** X4: calls of [addManagedPolicy] touch nothing but the ledger and the
    diagnostics: the account, the attached and the default inline policies,
    the name and the ARN of the group and the store of inline policies are as
    before; earlier warnings are kept, at most one is added per call, and
    each new one is filed under the group itself. *)
Theorem additions_frame {PS : Type} (this : GroupObj) (w : @World PS)
    (ps : list IManagedPolicy) :
  base (addManagedPolicies ps this w).1 = base this
  ∧ groupName (addManagedPolicies ps this w).1 = groupName this
  ∧ groupArn (addManagedPolicies ps this w).1 = groupArn this
  ∧ policies (addManagedPolicies ps this w).2 = policies w
  ∧ ∃ new, warnings (addManagedPolicies ps this w).2 = warnings w ++ new
           ∧ Forall (λ m, m.1 = node (base this)) new
           ∧ (length new ≤ length ps)%nat.
Proof.
  revert this w. induction ps as [|p ps IH]; intros this w.
  - repeat split; try done. nothing_new.
  - rewrite addManagedPolicies_cons.
    destruct (addManagedPolicy_frame p this w) as (Hb & Hn & Ha & Hp & new1 & Hw & Hs & Hl).
    destruct (IH (addManagedPolicy p this w).1 (addManagedPolicy p this w).2)
      as (Hb' & Hn' & Ha' & Hp' & new2 & Hw' & Hs' & Hl').
    rewrite Hb', Hn', Ha', Hp', Hw', Hb, Hn, Ha, Hp, Hw. repeat split; try done.
    exists (new1 ++ new2). rewrite app_assoc. split; [done|]. split.
    + apply Forall_app. split; [done|]. by rewrite Hb in Hs'.
    + rewrite length_app. simpl. lia.
Qed.

(** X5: when the ledger of a group holds at most 10 managed policies after
    its construction and the additions that followed, none of these steps
    gave a warning: the surroundings are as they were before the group was
    declared. *)
Theorem no_warning_within_quota {PS : Type} (mpArn : IManagedPolicy → Str)
    (nameAttr : Str → Str) (arnAttr : Str → ArnComponents → Str)
    scope id props later (w : @World PS) :
  (length (managedPolicies (declareGroup mpArn nameAttr arnAttr scope id props later w).1)
   ≤ 10)%nat →
  (declareGroup mpArn nameAttr arnAttr scope id props later w).2 = w.
Proof.
  unfold declareGroup. lazy beta iota zeta delta [Group_new].
  set (this0 := Group _ _ _ _). intros Hlen.
  assert (Hq : managedPoliciesExceededWarning this0 w = w).
  { pose proof (addManagedPolicies_prefix later this0
                  (managedPoliciesExceededWarning this0 w)) as Hpre.
    apply prefix_length in Hpre. unfold managedPoliciesExceededWarning.
    rewrite bool_decide_eq_false_2; [done|lia]. }
  rewrite Hq in Hlen |- *. by apply addManagedPolicies_quiet.
Qed.

Lemma no_warning_within_quota_witness :
  (length (managedPolicies
             (declareGroup (λ _, []) id (λ _ c, formatArn sampleStack c) sampleScope "Admins"
                (sampleProps (Some [1; 2; 3])) [3; 4] emptyWorld).1) ≤ 10)%nat
  ∧ (declareGroup (λ _, []) id (λ _ c, formatArn sampleStack c) sampleScope "Admins"
       (sampleProps (Some [1; 2; 3])) [3; 4] emptyWorld).2 = emptyWorld.
Proof.
  assert (H : (length (managedPolicies
                 (declareGroup (λ _, []) id (λ _ c, formatArn sampleStack c) sampleScope
                    "Admins" (sampleProps (Some [1; 2; 3])) [3; 4] emptyWorld).1) ≤ 10)%nat)
    by by_decision.
  split; [exact H|].
  exact (no_warning_within_quota (λ _, []) id (λ _ c, formatArn sampleStack c) sampleScope
           "Admins" (sampleProps (Some [1; 2; 3])) [3; 4] emptyWorld H).
Defined.

(** X6: on a group whose ledger already holds 10 or more managed policies,
    adding references that are new and distinct appends each of them and
    gives one warning per call, in order, the k-th of them reporting the
    count reached by the k-th addition. *)
Theorem warnings_past_quota {PS : Type} b n a (mps ps : list IManagedPolicy)
    (w : @World PS) :
  (10 ≤ length mps)%nat → NoDup ps → Forall (λ x, x ∉ mps) ps →
  addManagedPolicies ps (Group b n a mps) w
  = (Group b n a (mps ++ ps),
     mkWorld (policies w)
       (warnings w
          ++ ((λ k, (node b, exceededMessage (length mps + k) (physicalName b)))
                <$> seq 1 (length ps)))).
Proof.
  revert mps w. induction ps as [|p ps IH]; intros mps w Hlen Hnd Hfresh.
  - simpl. rewrite !app_nil_r. by destruct w.
  - apply NoDup_cons in Hnd as [Hp Hnd]. apply Forall_cons in Hfresh as [Hpm Hfresh].
    rewrite addManagedPolicies_cons, addManagedPolicy_Group.
    rewrite bool_decide_eq_false_2 by done. cbn [fst snd].
    rewrite IH; [|rewrite length_app; simpl; lia|done|].
    + unfold managedPoliciesExceededWarning. cbn [managedPolicies base].
      rewrite bool_decide_eq_true_2 by (rewrite length_app; simpl; lia).
      unfold addWarning. cbn [policies warnings].
      rewrite <- !app_assoc. do 3 f_equal.
      assert (Hlen1 : length (mps ++ [p]) = length mps + 1) by (by rewrite length_app).
      rewrite Hlen1. cbn [length seq fmap list_fmap app]. f_equal.
      rewrite <- (fmap_S_seq 1), <- list_fmap_compose. apply list_fmap_ext.
      intros i k _. simpl. do 2 f_equal. lia.
    + eapply Forall_impl; [|intros x Hx; exact Hx].
      clear -Hp Hfresh. induction ps as [|q ps IH]; [constructor|].
      apply Forall_cons in Hfresh as [Hq Hfresh].
      apply not_elem_of_cons in Hp as [Hne Hp]. constructor; [|by apply IH].
      rewrite elem_of_app, list_elem_of_singleton. intros [?| ->]; done.
Qed.

Lemma warnings_past_quota_witness :
  ((10 ≤ length (seq 1 10))%nat ∧ NoDup [11; 12] ∧ Forall (λ x, x ∉ seq 1 10) [11; 12])
  ∧ addManagedPolicies [11; 12] (sampleGroup (seq 1 10)) emptyWorld
    = (sampleGroup (seq 1 10 ++ [11; 12]),
       mkWorld (policies emptyWorld)
         (warnings emptyWorld
            ++ ((λ k, (node sampleBase,
                       exceededMessage (length (seq 1 10) + k) (physicalName sampleBase)))
                  <$> seq 1 (length [11; 12])))).
Proof.
  assert (H : (10 ≤ length (seq 1 10))%nat ∧ NoDup [11; 12]
              ∧ Forall (λ x, x ∉ seq 1 10) [11; 12])
    by (repeat split; by_decision).
  split; [exact H|]. destruct H as (H1 & H2 & H3).
  exact (warnings_past_quota sampleBase _ _ (seq 1 10) [11; 12] emptyWorld H1 H2 H3).
Defined.

(** X7: for a batch without duplicates it makes no difference to the group
    whether the batch is handed to the constructor or added afterwards by
    calls of [addManagedPolicy]: name, ARN, account and ledger of the group
    are the same, whatever is added later and whatever the surroundings. *)
Theorem batch_or_later {PS : Type} (mpArn : IManagedPolicy → Str)
    (nameAttr : Str → Str) (arnAttr : Str → ArnComponents → Str)
    scope id name path (batch later : list IManagedPolicy) (w w' : @World PS) :
  NoDup batch →
  (declareGroup mpArn nameAttr arnAttr scope id (GroupProps.mk name (Some batch) path)
     later w).1
  = (declareGroup mpArn nameAttr arnAttr scope id (GroupProps.mk name None path)
       (batch ++ later) w').1.
Proof.
  intros Hnd. unfold declareGroup. lazy beta iota zeta delta [Group_new].
  cbn [GroupProps.managedPolicies GroupProps.groupName GroupProps.path default].
  rewrite addManagedPolicies_app.
  rewrite (addManagedPolicies_fresh batch) by (try done; intros x _ H; by apply elem_of_nil in H).
  cbn [app]. apply addManagedPolicies_group_only.
Qed.

Lemma batch_or_later_witness :
  NoDup [1; 2; 3]
  ∧ (declareGroup (λ _, []) id (λ _ c, formatArn sampleStack c) sampleScope "Admins"
       (GroupProps.mk (Some (lit "NetAdmin")) (Some [1; 2; 3]) None) [3; 4] emptyWorld).1
    = (declareGroup (λ _, []) id (λ _ c, formatArn sampleStack c) sampleScope "Admins"
         (GroupProps.mk (Some (lit "NetAdmin")) None None) ([1; 2; 3] ++ [3; 4]) emptyWorld).1.
Proof.
  assert (H : NoDup [1; 2; 3]) by by_decision.
  split; [exact H|].
  exact (batch_or_later (λ _, []) id (λ _ c, formatArn sampleStack c) sampleScope "Admins"
           (Some (lit "NetAdmin")) None [1; 2; 3] [3; 4] emptyWorld emptyWorld H).
Defined.

(** * Further properties of inline statements *)

Section DefaultPolicySteps.
Context {PolicyStatement : Type}.
Implicit Types (this : GroupObj) (w : @World PolicyStatement).
Implicit Types (s : PolicyStatement) (ss : list PolicyStatement).

Lemma addToPrincipalPolicy_existing s this w l pol :
  defaultPolicy (base this) = Some (length l) → policies w = l ++ [pol] →
  addToPrincipalPolicy s this w
  = (mkResult true (length l), this,
     mkWorld (l ++ [mkPolicy (policyPath pol) (statements pol ++ [s]) (groups pol)])
       (warnings w)).
Proof.
  intros Hd Hp. unfold addToPrincipalPolicy. rewrite Hd. simpl.
  unfold Policy_addStatements. by rewrite Hp, alter_last.
Qed.

Lemma addToPrincipalPolicies_existing ss this w l pol :
  defaultPolicy (base this) = Some (length l) → policies w = l ++ [pol] →
  addToPrincipalPolicies ss this w
  = ((λ _, mkResult true (length l)) <$> ss, this,
     mkWorld (l ++ [mkPolicy (policyPath pol) (statements pol ++ ss) (groups pol)])
       (warnings w)).
Proof.
  revert w pol. induction ss as [|s ss IH]; intros w pol Hd Hp.
  - simpl. rewrite app_nil_r. destruct w as [ps ws], pol. simpl in *. by subst.
  - simpl. rewrite (addToPrincipalPolicy_existing s this w l pol) by done.
    rewrite (IH _ (mkPolicy (policyPath pol) (statements pol ++ [s]) (groups pol)))
      by done.
    simpl. by rewrite <- app_assoc.
Qed.

(** The group after its first call of [addToPrincipalPolicy]. *)
Lemma first_call_facts (p : PolicyRef) this :
  defaultPolicy (base (recordAttached p (withDefaultPolicy p this))) = Some p
  ∧ node (base (recordAttached p (withDefaultPolicy p this))) = node (base this)
  ∧ groupName (recordAttached p (withDefaultPolicy p this)) = groupName this
  ∧ groupArn (recordAttached p (withDefaultPolicy p this)) = groupArn this
  ∧ managedPolicies (recordAttached p (withDefaultPolicy p this)) = managedPolicies this
  ∧ attachedPolicies (base (recordAttached p (withDefaultPolicy p this)))
    = AttachedPolicies_attach p (attachedPolicies (base this)).
Proof. by destruct this. Qed.
End DefaultPolicySteps.

(** X8: on a group that has no default policy yet, a run of calls of
    [addToPrincipalPolicy] creates one policy object, named [DefaultPolicy]
    under the group, attached to the group once and entered in the group's
    record of attached policies, and leaves in it the statements of all the
    calls in the order of the calls; every call reports success with that
    object, the policies already in the store and the diagnostics are
    untouched, and so are name, ARN and ledger of the group. *)
Theorem statements_gather_in_default_policy {PS : Type} (s : PS) (ss : list PS)
    (this : GroupObj) (w : @World PS) :
  defaultPolicy (base this) = None →
  let '(rs, this', w') := addToPrincipalPolicies (s :: ss) this w in
  rs = (λ _, mkResult true (length (policies w))) <$> (s :: ss)
  ∧ w' = mkWorld
           (policies w
              ++ [mkPolicy (node (base this) +:+ "/" +:+ "DefaultPolicy") (s :: ss)
                    [node (base this)]])
           (warnings w)
  ∧ defaultPolicy (base this') = Some (length (policies w))
  ∧ groupName this' = groupName this ∧ groupArn this' = groupArn this
  ∧ managedPolicies this' = managedPolicies this
  ∧ attachedPolicies (base this')
    = AttachedPolicies_attach (length (policies w)) (attachedPolicies (base this)).
Proof.
  intros Hd. cbn [addToPrincipalPolicies].
  rewrite (addToPrincipalPolicy_first s this w Hd).
  destruct (first_call_facts (length (policies w)) this)
    as (Hdp & Hnode & Hn & Ha & Hm & Hat).
  rewrite (addToPrincipalPolicies_existing ss _ _ (policies w)
             (mkPolicy (node (base this) +:+ "/" +:+ "DefaultPolicy") [s] [node (base this)]))
    by done.
  by repeat split.
Qed.

Lemma statements_gather_in_default_policy_witness :
  defaultPolicy (base (sampleGroup [])) = None
  ∧ let '(rs, this', w') :=
      addToPrincipalPolicies ("allow-read" :: ["allow-write"; "deny-delete"])
        (sampleGroup []) emptyWorld in
    rs = (λ _, mkResult true (length (policies emptyWorld)))
           <$> ("allow-read" :: ["allow-write"; "deny-delete"])
    ∧ w' = mkWorld
             (policies emptyWorld
                ++ [mkPolicy (node (base (sampleGroup [])) +:+ "/" +:+ "DefaultPolicy")
                      ("allow-read" :: ["allow-write"; "deny-delete"])
                      [node (base (sampleGroup []))]])
             (warnings emptyWorld)
    ∧ defaultPolicy (base this') = Some (length (policies emptyWorld))
    ∧ groupName this' = groupName (sampleGroup [])
    ∧ groupArn this' = groupArn (sampleGroup [])
    ∧ managedPolicies this' = managedPolicies (sampleGroup [])
    ∧ attachedPolicies (base this')
      = AttachedPolicies_attach (length (policies emptyWorld))
          (attachedPolicies (base (sampleGroup []))).
Proof.
  split; [reflexivity|].
  exact (statements_gather_in_default_policy "allow-read" ["allow-write"; "deny-delete"]
           (sampleGroup []) emptyWorld eq_refl).
Defined.

(** X9: [addManagedPolicy] and [addToPrincipalPolicy] do not interfere: made
    in either order, the two calls return the same result and leave the same
    group and the same surroundings. *)
Theorem managed_and_inline_commute {PS : Type} (P : IManagedPolicy) (s : PS)
    (this : GroupObj) (w : @World PS) :
  let a := addManagedPolicy P this w in
  let r := addToPrincipalPolicy s a.1 a.2 in
  let r' := addToPrincipalPolicy s this w in
  let a' := addManagedPolicy P r'.1.2 r'.2 in
  r.1.1 = r'.1.1 ∧ r.1.2 = a'.1 ∧ r.2 = a'.2.
Proof.
  cbn zeta.
  assert (Hstep : ∀ g (v : @World PS),
            addToPrincipalPolicy s g v
            = match defaultPolicy (base g) with
              | Some p => (mkResult true p, g, Policy_addStatements p [s] v)
              | None =>
                  (mkResult true (length (policies v)),
                   recordAttached (length (policies v))
                     (withDefaultPolicy (length (policies v)) g),
                   mkWorld
                     (policies v
                        ++ [mkPolicy (node (base g) +:+ "/" +:+ "DefaultPolicy") [s]
                              [node (base g)]])
                     (warnings v))
              end).
  { intros g v. destruct (defaultPolicy (base g)) as [p|] eqn:Hd.
    - by apply addToPrincipalPolicy_later.
    - by apply addToPrincipalPolicy_first. }
  rewrite !Hstep.
  destruct this as [[nd ph pa ap dp] n a|[nd ph pa ap dp] n a mps].
  - destruct dp; done.
  - rewrite addManagedPolicy_Group.
    destruct dp as [p|]; case_bool_decide as HP; cbn;
      rewrite ?(find_present P mps), ?(find_absent P mps) by done; cbn;
      try done;
      unfold managedPoliciesExceededWarning; cbn; case_bool_decide; done.
Qed.

(** X10: in the resource name of the ARN exactly one leading slash of the
    path is dropped. A path that does not begin with a slash gives the same
    components with and without a slash put in front of it; the path [/], the
    empty path and no path at all give the physical name alone; of two
    leading slashes the second stays. *)
Theorem path_spellings (q n : Str) :
  isSlash (charAt q 0) = false →
  groupArnComponents (Some (Chr SLASH :: q)) n = groupArnComponents (Some q) n
  ∧ groupArnComponents (Some (lit "/")) n = groupArnComponents None n
  ∧ groupArnComponents (Some (lit "")) n = groupArnComponents None n
  ∧ resourceName (groupArnComponents None n) = Some n
  ∧ resourceName (groupArnComponents (Some (Chr SLASH :: Chr SLASH :: q)) n)
    = Some (Chr SLASH :: q ++ n).
Proof.
  intros Hq. repeat split.
  destruct q as [|x q]; [done|].
  unfold groupArnComponents. cbn [charAt lookup list_lookup] in Hq |- *.
  rewrite Hq. done.
Qed.

Lemma path_spellings_witness :
  isSlash (charAt (lit "admins/") 0) = false
  ∧ groupArnComponents (Some (Chr SLASH :: lit "admins/")) (lit "NetAdmin")
    = groupArnComponents (Some (lit "admins/")) (lit "NetAdmin")
  ∧ groupArnComponents (Some (lit "/")) (lit "NetAdmin")
    = groupArnComponents None (lit "NetAdmin")
  ∧ groupArnComponents (Some (lit "")) (lit "NetAdmin")
    = groupArnComponents None (lit "NetAdmin")
  ∧ resourceName (groupArnComponents None (lit "NetAdmin")) = Some (lit "NetAdmin")
  ∧ resourceName
      (groupArnComponents (Some (Chr SLASH :: Chr SLASH :: lit "admins/")) (lit "NetAdmin"))
    = Some (Chr SLASH :: lit "admins/" ++ lit "NetAdmin").
Proof.
  split; [reflexivity|].
  exact (path_spellings (lit "admins/") (lit "NetAdmin") eq_refl).
Defined.

(** X11: two groups without a default policy, each given a statement, get a
    default policy object of their own: the two objects differ, each is
    attached to its own group only and holds the statement of its own group
    only. *)
Theorem default_policies_are_separate {PS : Type} (s1 s2 : PS) (g1 g2 : GroupObj)
    (w : @World PS) :
  defaultPolicy (base g1) = None → defaultPolicy (base g2) = None →
  let '(r1, g1', w1) := addToPrincipalPolicy s1 g1 w in
  let '(r2, g2', w2) := addToPrincipalPolicy s2 g2 w1 in
  policyDependable r1 ≠ policyDependable r2
  ∧ policies w2 !! policyDependable r1
    = Some (mkPolicy (node (base g1) +:+ "/" +:+ "DefaultPolicy") [s1] [node (base g1)])
  ∧ policies w2 !! policyDependable r2
    = Some (mkPolicy (node (base g2) +:+ "/" +:+ "DefaultPolicy") [s2] [node (base g2)])
  ∧ defaultPolicy (base g1') = Some (policyDependable r1)
  ∧ defaultPolicy (base g2') = Some (policyDependable r2).
Proof.
  intros H1 H2. rewrite (addToPrincipalPolicy_first s1 g1 w H1).
  rewrite (addToPrincipalPolicy_first s2 g2 _ H2). cbn [policies policyDependable].
  destruct (first_call_facts (length (policies w)) g1) as (Hd1 & _).
  destruct (first_call_facts
              (length (policies w
                 ++ [mkPolicy (node (base g1) +:+ "/" +:+ "DefaultPolicy") [s1]
                       [node (base g1)]])) g2) as (Hd2 & _).
  split; [rewrite length_app; simpl; lia|]. split; [|split; [|done]].
  - rewrite lookup_app_l by (rewrite length_app; simpl; lia).
    by rewrite list_lookup_middle.
  - by rewrite list_lookup_middle.
Qed.

Lemma default_policies_are_separate_witness :
  (defaultPolicy (base (sampleGroup [])) = None
   ∧ defaultPolicy (base sampleImport) = None)
  ∧ let '(r1, g1', w1) := addToPrincipalPolicy "allow-read" (sampleGroup []) emptyWorld in
    let '(r2, g2', w2) :=
      addToPrincipalPolicy "allow-write" sampleImport w1 in
    policyDependable r1 ≠ policyDependable r2
    ∧ policies w2 !! policyDependable r1
      = Some (mkPolicy (node (base (sampleGroup [])) +:+ "/" +:+ "DefaultPolicy")
                ["allow-read"] [node (base (sampleGroup []))])
    ∧ policies w2 !! policyDependable r2
      = Some (mkPolicy
                (node (base sampleImport)
                   +:+ "/" +:+ "DefaultPolicy")
                ["allow-write"] [node (base sampleImport)])
    ∧ defaultPolicy (base g1') = Some (policyDependable r1)
    ∧ defaultPolicy (base g2') = Some (policyDependable r2).
Proof.
  split; [split; reflexivity|].
  exact (default_policies_are_separate "allow-read" "allow-write" (sampleGroup [])
           sampleImport emptyWorld eq_refl eq_refl).
Defined.

(** * Imported groups and attached policies *)

Lemma addManagedPolicies_Import {PS : Type} (ps : list IManagedPolicy) b n a (w : @World PS) :
  addManagedPolicies ps (Import b n a) w = (Import b n a, w).
Proof. induction ps as [|p ps IH]; [done|]. by rewrite addManagedPolicies_cons. Qed.

(** X12: a group imported by ARN drops managed policies but keeps inline
    statements: after any calls of [addManagedPolicy] and then calls of
    [addToPrincipalPolicy], the statements are all in a [DefaultPolicy]
    created under the import and attached to it, nothing else was added to
    the surroundings, the ledger is empty, and name and ARN are those of the
    import. *)
Theorem imported_group_takes_statements {PS : Type} scope id arn (g : GroupObj)
    (ps : list IManagedPolicy) (s : PS) (ss : list PS) (w : @World PS) :
  fromGroupArn scope id arn = Some g →
  let '(g1, w1) := addManagedPolicies ps g w in
  let '(rs, g2, w2) := addToPrincipalPolicies (s :: ss) g1 w1 in
  w2 = mkWorld
         (policies w
            ++ [mkPolicy (childPath scope id +:+ "/" +:+ "DefaultPolicy") (s :: ss)
                  [childPath scope id]])
         (warnings w)
  ∧ Forall (λ r, statementAdded r = true ∧ policyDependable r = length (policies w)) rs
  ∧ managedPolicies g2 = []
  ∧ groupArn g2 = arn
  ∧ groupName g2 = groupName g.
Proof.
  unfold fromGroupArn. destruct (splitArn arn SLASH_RESOURCE_NAME) as [c|]; [|done].
  simpl. intros [= <-]. rewrite addManagedPolicies_Import.
  cbn [addToPrincipalPolicies].
  rewrite addToPrincipalPolicy_first by done.
  rewrite (addToPrincipalPolicies_existing ss _ _ (policies w)
             (mkPolicy (childPath scope id +:+ "/" +:+ "DefaultPolicy") [s]
                [childPath scope id])) by done.
  simpl. repeat split; try done.
  constructor; [done|]. apply Forall_fmap, Forall_true. done.
Qed.

Lemma imported_group_takes_statements_witness :
  ∃ g,
    fromGroupArn sampleScope "Ops" (lit "arn:aws:iam::123456789012:group/Ops") = Some g
    ∧ let '(g1, w1) := addManagedPolicies [1; 2] g emptyWorld in
      let '(rs, g2, w2) := addToPrincipalPolicies ("allow-read" :: ["allow-write"]) g1 w1 in
      w2 = mkWorld
             (policies emptyWorld
                ++ [mkPolicy (childPath sampleScope "Ops" +:+ "/" +:+ "DefaultPolicy")
                      ("allow-read" :: ["allow-write"]) [childPath sampleScope "Ops"]])
             (warnings emptyWorld)
      ∧ Forall (λ r, statementAdded r = true
                     ∧ policyDependable r = length (policies emptyWorld)) rs
      ∧ managedPolicies g2 = []
      ∧ groupArn g2 = lit "arn:aws:iam::123456789012:group/Ops"
      ∧ groupName g2 = groupName g.
Proof.
  eexists. split; [reflexivity|].
  exact (imported_group_takes_statements sampleScope "Ops"
           (lit "arn:aws:iam::123456789012:group/Ops") _ [1; 2] "allow-read" ["allow-write"]
           emptyWorld eq_refl).
Defined.

(** X13: an inline policy attached with [attachInlinePolicy] is not taken as
    the default policy. On a group without default policy, a later
    [addToPrincipalPolicy] still creates a new object, different from the
    attached one; the attached policy keeps its statements, has been told of
    the group, and is on record as attached to the group. *)
Theorem attached_policy_is_not_default {PS : Type} (p : PolicyRef) (s : PS)
    (this : GroupObj) (w : @World PS) :
  (p < length (policies w))%nat → defaultPolicy (base this) = None →
  let '(this1, w1) := attachInlinePolicy p this w in
  let '(r, this2, w2) := addToPrincipalPolicy s this1 w1 in
  policyDependable r = length (policies w)
  ∧ policyDependable r ≠ p
  ∧ defaultPolicy (base this2) = Some (policyDependable r)
  ∧ p ∈ attachedPolicies (base this2)
  ∧ (∃ o, policies w2 !! p = Some o
          ∧ node (base this) ∈ groups o
          ∧ statements <$> (policies w !! p) = Some (statements o))
  ∧ policies w2 !! policyDependable r
    = Some (mkPolicy (node (base this) +:+ "/" +:+ "DefaultPolicy") [s] [node (base this)]).
Proof.
  intros Hp Hd. unfold PolicyRef in *.
  destruct (lookup_lt_is_Some_2 (policies w) p Hp) as [o Ho].
  destruct (recordAttached_facts p this) as (Hn0 & Hd0 & Hat0 & _).
  assert (Hstep : ∃ this1 w1,
            attachInlinePolicy p this w = (this1, w1)
            ∧ defaultPolicy (base this1) = None
            ∧ node (base this1) = node (base this)
            ∧ p ∈ attachedPolicies (base this1)
            ∧ length (policies w1) = length (policies w)
            ∧ ∃ o1, policies w1 !! p = Some o1
                    ∧ node (base this) ∈ groups o1 ∧ statements o1 = statements o).
  { unfold attachInlinePolicy, Policy_attachToGroup, Policy_holdsGroup, PolicyRef.
    rewrite Hn0, Ho. case_bool_decide as Hheld.
    - eexists _, _. split; [reflexivity|]. rewrite Hd0, Hn0, Hat0.
      repeat split; try done; [apply AttachedPolicies_attach_elem|]. by exists o.
    - eexists _, _. split; [reflexivity|].
      destruct (recordAttached_facts p (recordAttached p this)) as (Hn1 & Hd1 & Hat1 & _).
      rewrite Hd1, Hn1, Hat1, Hd0, Hn0.
      repeat split; try done; [apply AttachedPolicies_attach_elem| |].
      + unfold Policy_recordGroup. cbn [policies]. apply length_alter.
      + unfold Policy_recordGroup. cbn [policies].
        rewrite list_lookup_alter_eq, Ho. eexists. split; [reflexivity|].
        split; [|done]. cbn [groups]. apply elem_of_app. right. left. }
  destruct Hstep as (this1 & w1 & -> & Hd1 & Hn1 & Hat1 & Hlen & o1 & Ho1 & Hg1 & Hs1).
  rewrite (addToPrincipalPolicy_first s this1 w1 Hd1). cbn [policyDependable policies].
  destruct (first_call_facts (length (policies w1)) this1) as (Hdp & _ & _ & _ & _ & Hat).
  rewrite Hn1, Hlen in *.
  split; [done|]. split; [lia|]. split; [done|]. split.
  { rewrite Hat. unfold AttachedPolicies_attach. case_bool_decide; [done|].
    apply elem_of_app. by left. }
  split.
  - rewrite lookup_app_l by (rewrite Hlen; lia). rewrite Ho1.
    exists o1. split; [done|]. split; [done|]. by rewrite Ho, Hs1.
  - apply list_lookup_middle. by rewrite Hlen.
Qed.

Lemma attached_policy_is_not_default_witness :
  ((0 < length (policies sharedPolicyWorld))%nat
   ∧ defaultPolicy (base (sampleGroup [])) = None)
  ∧ let '(this1, w1) := attachInlinePolicy 0 (sampleGroup []) sharedPolicyWorld in
    let '(r, this2, w2) := addToPrincipalPolicy "allow-read" this1 w1 in
    policyDependable r = length (policies sharedPolicyWorld)
    ∧ policyDependable r ≠ 0
    ∧ defaultPolicy (base this2) = Some (policyDependable r)
    ∧ 0 ∈ attachedPolicies (base this2)
    ∧ (∃ o, policies w2 !! 0 = Some o
            ∧ node (base (sampleGroup [])) ∈ groups o
            ∧ statements <$> (policies sharedPolicyWorld !! 0) = Some (statements o))
    ∧ policies w2 !! policyDependable r
      = Some (mkPolicy (node (base (sampleGroup [])) +:+ "/" +:+ "DefaultPolicy")
                ["allow-read"] [node (base (sampleGroup []))]).
Proof.
  assert (H : (0 < length (policies sharedPolicyWorld))%nat) by (simpl; lia).
  split; [split; [exact H|reflexivity]|].
  exact (attached_policy_is_not_default 0 "allow-read" (sampleGroup []) sharedPolicyWorld
           H eq_refl).
Defined.
